(** * Redex: side-effect summaries, constant materialization, required
      configuration parameters

    A shallow embedding of

    - [opt/object-sensitive-dce/SideEffectSummary.cpp]: the per-method summary
      builder, the recursive call-graph driver and the s-expression form of a
      summary;
    - [opt/constant-propagation/ConstantPropagationTransform.h]: the
      [value_to_instruction_visitor];
    - [libredex/Configurable.h]: [bind_required] and [parse_required].

    Definitions come first, the properties proved about them follow. *)

From Stdlib Require Import ZArith Lia Ascii String.
From stdpp Require Import gmap strings list fin_maps.

#[global] Set Warnings "-clear-no-such-hyp".

(** ** Fatal conditions

    [always_assert] aborts the pass; the standard containers and parsers throw,
    and nothing in these files catches.  Both are values of [failure]. *)

Inductive failure : Type :=
| AssertionFailure (msg : string)   (* always_assert, always_assert_log *)
| StdOutOfRange (what : string)     (* std::out_of_range *)
| StdInvalidArgument (what : string) (* std::invalid_argument, sparta's checked accessors *)
| InvalidIterator (what : string).  (* dereferencing end() *)

Inductive result (A : Type) : Type :=
| Ok (a : A)
| Fatal (e : failure).
Arguments Ok {A} a.
Arguments Fatal {A} e.

#[global] Instance result_ret : MRet result := λ A a, Ok a.
#[global] Instance result_bind : MBind result := λ A B f r,
  match r with
  | Ok a => f a
  | Fatal e => Fatal e
  end.

Definition always_assert (cond : bool) (msg : string) : result unit :=
  if cond then Ok tt else Fatal (AssertionFailure msg).

(** A loop whose body may throw: the first failure ends it. *)
Fixpoint foldM {A S : Type} (body : S → A → result S) (l : list A) (s : S)
  : result S :=
  match l with
  | [] => Ok s
  | x :: l' => s' ← body s x; foldM body l' s'
  end.

(** ** Program representation *)

(** [reg_t] is [uint32_t]; [param_idx_t] is [uint16_t]. *)
Definition reg_t := N.
Definition param_idx_t := N.
Definition to_param_idx_t (z : Z) : param_idx_t := Z.to_N (z mod 2 ^ 16).

(** Modelled from the spec: the opcode table is declared outside the sources
    at hand ("each instruction has an opcode, a fixed arity of source operands
    and at most one destination operand, and may be a call, a branch, a heap
    write, a throw, or a lock operation").  Every opcode the three files name
    is a constructor of its own; [OPCODE_OTHER] stands for the rest of the
    instruction set. *)
Inductive IROpcode : Type :=
| OPCODE_THROW
| OPCODE_MONITOR_ENTER | OPCODE_MONITOR_EXIT
| OPCODE_SPUT | OPCODE_SPUT_WIDE | OPCODE_SPUT_BOOLEAN | OPCODE_SPUT_BYTE
| OPCODE_SPUT_CHAR | OPCODE_SPUT_SHORT | OPCODE_SPUT_OBJECT
| OPCODE_IPUT | OPCODE_IPUT_WIDE | OPCODE_IPUT_BOOLEAN | OPCODE_IPUT_BYTE
| OPCODE_IPUT_CHAR | OPCODE_IPUT_SHORT | OPCODE_IPUT_OBJECT
| OPCODE_APUT | OPCODE_APUT_WIDE | OPCODE_APUT_BOOLEAN | OPCODE_APUT_BYTE
| OPCODE_APUT_CHAR | OPCODE_APUT_SHORT | OPCODE_APUT_OBJECT
| OPCODE_FILL_ARRAY_DATA
| OPCODE_INVOKE_SUPER | OPCODE_INVOKE_INTERFACE
| OPCODE_INVOKE_STATIC | OPCODE_INVOKE_DIRECT | OPCODE_INVOKE_VIRTUAL
| OPCODE_CONST | OPCODE_CONST_WIDE | OPCODE_CONST_STRING
| IOPCODE_MOVE_RESULT_PSEUDO_OBJECT
| IOPCODE_LOAD_PARAM_OBJECT
| OPCODE_OTHER (code : N).

(** Modelled from the spec: [IRInstruction] (its header is not among the
    sources): an opcode, the source registers, one destination register, and
    the literal or string payload of a constant load. *)
Record IRInstruction : Type := mkInsn {
  opcode : IROpcode;
  srcs : list reg_t;
  dest : reg_t;
  literal : Z;
  string_payload : option string
}.

(** [new IRInstruction(op)]: none of the opcodes constructed in these files
    has a source register. *)
Definition new_IRInstruction (op : IROpcode) : IRInstruction :=
  {| opcode := op; srcs := []; dest := 0%N; literal := 0%Z;
     string_payload := None |}.

Definition set_literal (v : Z) (i : IRInstruction) : IRInstruction :=
  {| opcode := opcode i; srcs := srcs i; dest := dest i; literal := v;
     string_payload := string_payload i |}.

Definition set_dest (r : reg_t) (i : IRInstruction) : IRInstruction :=
  {| opcode := opcode i; srcs := srcs i; dest := r; literal := literal i;
     string_payload := string_payload i |}.

Definition set_string (s : string) (i : IRInstruction) : IRInstruction :=
  {| opcode := opcode i; srcs := srcs i; dest := dest i; literal := literal i;
     string_payload := Some s |}.

(** [insn->src(i)] asserts that [i] is below the number of sources. *)
Definition src (i : IRInstruction) (idx : nat) : result reg_t :=
  match srcs i !! idx with
  | Some r => Ok r
  | None => Fatal (AssertionFailure "src index out of range")
  end.

(** A [const IRInstruction*]: the analyses key their maps and sets by the
    address and read the opcode and operands through it. *)
Record insn_ptr : Type := mkPtr {
  addr : positive;
  target : IRInstruction
}.

Record Block : Type := mkBlock {
  block_id : N;
  block_insns : list insn_ptr
}.

Record IRCode : Type := mkCode {
  get_param_instructions : list insn_ptr;
  cfg_blocks : list Block
}.

(** ** Summaries *)

(** Modelled from the spec: the effect flags and [Summary] are declared in
    SideEffectSummary.h, which is not among the sources.  "effects (bitset of
    {throws, locks, escaping-write, unknown-invoke, no-optimize}),
    modified_params (set of parameter indices ...)"; the flags take the bits
    0 to 4 in the order the spec lists them. *)
Definition EFF_NONE : Z := 0.
Definition EFF_THROWS : Z := 1.
Definition EFF_LOCKS : Z := 2.
Definition EFF_WRITE_MAY_ESCAPE : Z := 4.
Definition EFF_UNKNOWN_INVOKE : Z := 8.
Definition EFF_NO_OPTIMIZE : Z := 16.

Record Summary : Type := mkSummary {
  effects : Z;
  modified_params : gset param_idx_t
}.

(** [Summary summary;] *)
Definition Summary_default : Summary :=
  {| effects := EFF_NONE; modified_params := ∅ |}.

(** [summary->effects |= e] *)
Definition or_effects (e : Z) (s : Summary) : Summary :=
  {| effects := Z.lor (effects s) e; modified_params := modified_params s |}.

(** [summary->modified_params.emplace(idx)] *)
Definition emplace_param (idx : param_idx_t) (s : Summary) : Summary :=
  {| effects := effects s; modified_params := {[idx]} ∪ modified_params s |}.

(** Every bit of [e] is set in the summary's effects. *)
Definition has_effect (e : Z) (s : Summary) : Prop :=
  Z.land (effects s) e = e.

(** ** The pointer analysis consumed by the builder *)

(** Modelled from the spec: the local pointer analysis is an external
    collaborator ("for a program point and register, the set of
    allocation-site instruction identities it may reference, each flagged
    escaped/not-escaped, or a sentinel meaning unknown/top").  A pointer set
    is bottom, a concrete set of allocation sites, or top. *)
Inductive PointerSet : Type :=
| PS_Bottom
| PS_Value (elements_of : list insn_ptr)
| PS_Top.

Definition is_value (p : PointerSet) : bool :=
  match p with
  | PS_Value _ => true
  | _ => false
  end.

Record Environment : Type := mkEnv {
  is_bottom : bool;
  get_pointers : reg_t → PointerSet;
  may_have_escaped : insn_ptr → bool
}.

Record FixpointIterator : Type := mkFixpointIterator {
  get_entry_state_at : Block → Environment;
  analyze_instruction : insn_ptr → Environment → Environment
}.

(** ** SummaryBuilder *)

Record SummaryBuilder : Type := mkBuilder {
  m_param_insn_map : gmap positive param_idx_t;
  m_invoke_to_summary_cmap : gmap positive Summary;
  m_ptrs_fp_iter : FixpointIterator;
  m_code : IRCode
}.

(** [m_param_insn_map.emplace(insn, idx++)] over the load-param instructions:
    [emplace] keeps an entry that is already there. *)
Fixpoint number_params (l : list insn_ptr) (idx : Z)
  (m : gmap positive param_idx_t) : gmap positive param_idx_t :=
  match l with
  | [] => m
  | insn :: l' =>
      number_params l' (idx + 1)
        (match m !! addr insn with
         | Some _ => m
         | None => <[addr insn := to_param_idx_t idx]> m
         end)
  end.

Definition SummaryBuilder_new (invoke_to_summary_cmap : gmap positive Summary)
  (ptrs_fp_iter : FixpointIterator) (code : IRCode) : SummaryBuilder :=
  {| m_param_insn_map := number_params (get_param_instructions code) 0 ∅;
     m_invoke_to_summary_cmap := invoke_to_summary_cmap;
     m_ptrs_fp_iter := ptrs_fp_iter;
     m_code := code |}.

Definition is_load_param_object (op : IROpcode) : bool :=
  match op with
  | IOPCODE_LOAD_PARAM_OBJECT => true
  | _ => false
  end.

(** The body of the loop over [pointers.elements()]. *)
Definition classify_pointer (b : SummaryBuilder) (env : Environment)
  (summary : Summary) (insn : insn_ptr) : result Summary :=
  if negb (may_have_escaped env insn) then
    if is_load_param_object (opcode (target insn)) then
      match m_param_insn_map b !! addr insn with
      | Some idx => Ok (emplace_param idx summary)
      | None => Fatal (StdOutOfRange "unordered_map::at")
      end
    else Ok summary
  else Ok (or_effects EFF_WRITE_MAY_ESCAPE summary).

Definition classify_heap_write (b : SummaryBuilder) (env : Environment)
  (modified_ptr_reg : reg_t) (summary : Summary) : result Summary :=
  let pointers := get_pointers env modified_ptr_reg in
  if negb (is_value pointers) then
    Ok (or_effects EFF_WRITE_MAY_ESCAPE summary)
  else
    match pointers with
    | PS_Value elts => foldM (classify_pointer b env) elts summary
    | _ => Ok summary
    end.

Definition analyze_instruction_effects (b : SummaryBuilder) (env : Environment)
  (insn : insn_ptr) (summary : Summary) : result Summary :=
  match opcode (target insn) with
  | OPCODE_THROW => Ok (or_effects EFF_THROWS summary)
  | OPCODE_MONITOR_ENTER | OPCODE_MONITOR_EXIT =>
      Ok (or_effects EFF_LOCKS summary)
  | OPCODE_SPUT | OPCODE_SPUT_WIDE | OPCODE_SPUT_BOOLEAN | OPCODE_SPUT_BYTE
  | OPCODE_SPUT_CHAR | OPCODE_SPUT_SHORT | OPCODE_SPUT_OBJECT =>
      Ok (or_effects EFF_WRITE_MAY_ESCAPE summary)
  | OPCODE_IPUT | OPCODE_IPUT_WIDE | OPCODE_IPUT_BOOLEAN | OPCODE_IPUT_BYTE
  | OPCODE_IPUT_CHAR | OPCODE_IPUT_SHORT | OPCODE_IPUT_OBJECT
  | OPCODE_APUT | OPCODE_APUT_WIDE | OPCODE_APUT_BOOLEAN | OPCODE_APUT_BYTE
  | OPCODE_APUT_CHAR | OPCODE_APUT_SHORT | OPCODE_APUT_OBJECT =>
      r ← src (target insn) 1;
      classify_heap_write b env r summary
  | OPCODE_FILL_ARRAY_DATA =>
      r ← src (target insn) 0;
      classify_heap_write b env r summary
  | OPCODE_INVOKE_SUPER | OPCODE_INVOKE_INTERFACE =>
      Ok (or_effects EFF_UNKNOWN_INVOKE summary)
  | OPCODE_INVOKE_STATIC | OPCODE_INVOKE_DIRECT | OPCODE_INVOKE_VIRTUAL =>
      match m_invoke_to_summary_cmap b !! addr insn with
      | Some callee_summary =>
          foldM (λ s idx, r ← src (target insn) (N.to_nat idx);
                          classify_heap_write b env r s)
                (elements (modified_params callee_summary))
                (or_effects (effects callee_summary) summary)
      | None => Ok (or_effects EFF_UNKNOWN_INVOKE summary)
      end
  | _ => Ok summary
  end.

(** The inner loop of [build]: the effects of an instruction are read in the
    environment before it, which the pointer analysis then advances. *)
Definition scan_instruction (b : SummaryBuilder)
  (st : Environment * Summary) (insn : insn_ptr)
  : result (Environment * Summary) :=
  summary' ← analyze_instruction_effects b st.1 insn st.2;
  Ok (analyze_instruction (m_ptrs_fp_iter b) insn st.1, summary').

Definition scan_block (b : SummaryBuilder) (summary : Summary) (block : Block)
  : result Summary :=
  let env := get_entry_state_at (m_ptrs_fp_iter b) block in
  if is_bottom env then Ok summary
  else st ← foldM (scan_instruction b) (block_insns block) (env, summary);
       Ok st.2.

Definition build (b : SummaryBuilder) : result Summary :=
  foldM (scan_block b) (cfg_blocks (m_code b)) Summary_default.

(** [side_effects::analyze_code] *)
Definition analyze_code (invoke_to_summary_cmap : gmap positive Summary)
  (ptrs_fp_iter : FixpointIterator) (code : IRCode) : result Summary :=
  build (SummaryBuilder_new invoke_to_summary_cmap ptrs_fp_iter code).

(** ** The recursive driver *)

(** Modelled from the spec: [DexMethod] and the call graph are external
    inputs ("nodes = methods, edges = call sites, each edge identifies its
    invoke instruction and callee").  A method is known by its address; it has
    a body or not, and may be marked do-not-optimize. *)
Record DexMethod : Type := mkMethod {
  method_addr : positive;
  get_code : option IRCode;
  no_optimizations : bool
}.

Record Edge : Type := mkEdge {
  callee : DexMethod;
  invoke_insn : insn_ptr
}.

(** [map.emplace(k, v)]: the first writer wins. *)
Definition emplace {V : Type} (k : positive) (v : V) (m : gmap positive V)
  : gmap positive V :=
  match m !! k with
  | Some _ => m
  | None => <[k := v]> m
  end.

(** A run of the driver: [None] when the model's fuel is exhausted, otherwise
    the outcome of the C++ call. *)
Definition run (A : Type) : Type := option (result A).

(** The loop over [callee_edges]: it threads the shared [summary_cmap] and
    fills the invoke-to-summary map of the method being analyzed. *)
Fixpoint analyze_callees
  (recurse : DexMethod → gmap positive Summary → run (gmap positive Summary))
  (edges : list Edge)
  (summary_cmap invoke_to_summary_cmap : gmap positive Summary)
  : run (gmap positive Summary * gmap positive Summary) :=
  match edges with
  | [] => Some (Ok (summary_cmap, invoke_to_summary_cmap))
  | edge :: edges' =>
      match recurse (callee edge) summary_cmap with
      | None => None
      | Some (Fatal e) => Some (Fatal e)
      | Some (Ok summary_cmap') =>
          analyze_callees recurse edges' summary_cmap'
            (match summary_cmap' !! method_addr (callee edge) with
             | Some callee_summary =>
                 emplace (addr (invoke_insn edge)) callee_summary
                   invoke_to_summary_cmap
             | None => invoke_to_summary_cmap
             end)
      end
  end.

(** What follows the loop: build, the do-not-optimize check, publication. *)
Definition summarize_and_publish (method : DexMethod) (code : IRCode)
  (ptrs_fp_iter_map : gmap positive FixpointIterator)
  (summary_cmap invoke_to_summary_cmap : gmap positive Summary)
  : result (gmap positive Summary) :=
  match ptrs_fp_iter_map !! method_addr method with
  | None => Fatal (InvalidIterator "ptrs_fp_iter_map.find")
  | Some ptrs_fp_iter =>
      summary ← build (SummaryBuilder_new invoke_to_summary_cmap ptrs_fp_iter code);
      let summary :=
        if no_optimizations method then or_effects EFF_NO_OPTIMIZE summary
        else summary in
      Ok (emplace (method_addr method) summary summary_cmap)
  end.

Fixpoint analyze_method_recursive (fuel : nat) (method : DexMethod)
  (call_graph : gmap positive (list Edge))
  (ptrs_fp_iter_map : gmap positive FixpointIterator)
  (visiting : gset positive) (summary_cmap : gmap positive Summary)
  : run (gmap positive Summary) :=
  match fuel with
  | O => None
  | S fuel' =>
      match get_code method with
      | None => Some (Ok summary_cmap)
      | Some code =>
          if bool_decide (is_Some (summary_cmap !! method_addr method))
             || bool_decide (method_addr method ∈ visiting)
          then Some (Ok summary_cmap)
          else
            let visiting := {[method_addr method]} ∪ visiting in
            match analyze_callees
                    (λ callee cmap,
                       analyze_method_recursive fuel' callee call_graph
                         ptrs_fp_iter_map visiting cmap)
                    (default [] (call_graph !! method_addr method))
                    summary_cmap ∅ with
            | None => None
            | Some (Fatal e) => Some (Fatal e)
            | Some (Ok (summary_cmap', invoke_to_summary_cmap)) =>
                Some (summarize_and_publish method code ptrs_fp_iter_map
                        summary_cmap' invoke_to_summary_cmap)
            end
      end
  end.

(** Every method that occurs as a callee of some edge of the call graph. *)
Definition callee_addrs (call_graph : gmap positive (list Edge))
  : gset positive :=
  ⋃ (map (λ node : positive * list Edge,
            list_to_set (map (λ e, method_addr (callee e)) node.2))
         (map_to_list call_graph)).

(** ** The serialized form of a summary *)

(** Modelled from the spec: the s-expression library is not among the
    sources ("a nested parenthesized list form — an effect-bitset encoded as
    its decimal string, followed by a list of modified-parameter indices as
    decimal integers").  An s-expression is an int32 atom, a string atom or a
    list; the accessors check the kind of their argument and throw
    otherwise. *)
#[warnings="-register-all"] Inductive s_expr : Type :=
| S_Int32 (n : Z)
| S_String (s : string)
| S_List (l : list s_expr).

Definition is_string (e : s_expr) : bool :=
  match e with S_String _ => true | _ => false end.

Definition is_list (e : s_expr) : bool :=
  match e with S_List _ => true | _ => false end.

Definition s_size (e : s_expr) : result nat :=
  match e with
  | S_List l => Ok (length l)
  | _ => Fatal (StdInvalidArgument "s_expr::size")
  end.

Definition s_index (e : s_expr) (i : nat) : result s_expr :=
  match e with
  | S_List l =>
      match l !! i with
      | Some x => Ok x
      | None => Fatal (StdInvalidArgument "s_expr::operator[]")
      end
  | _ => Fatal (StdInvalidArgument "s_expr::operator[]")
  end.

(** Modelled from the spec: [s_expr::str()] belongs to the s-expression
    library, which is not among the sources; it gives the printed form of an
    s-expression.  A string atom that is not empty and holds symbol
    characters only (letters, digits and [_ - / : .]) is printed as it is;
    any other string atom is printed between double quotes, a backslash put
    before every double quote and backslash in it.  [from_s_expr] calls
    [str()] past the assertion that the atom is a string; the printed forms
    of the other kinds are never read. *)
Definition is_alnum (c : ascii) : bool :=
  let n := Z.of_nat (nat_of_ascii c) in
  ((48 <=? n)%Z && (n <=? 57)%Z) || ((65 <=? n)%Z && (n <=? 90)%Z)
  || ((97 <=? n)%Z && (n <=? 122)%Z).

Definition is_symbol_char (c : ascii) : bool :=
  let n := Z.of_nat (nat_of_ascii c) in
  is_alnum c || (n =? 95)%Z || (n =? 45)%Z || (n =? 47)%Z || (n =? 58)%Z
  || (n =? 46)%Z.

Fixpoint all_symbol_chars (s : string) : bool :=
  match s with
  | EmptyString => true
  | String c s' => is_symbol_char c && all_symbol_chars s'
  end.

Definition double_quote : ascii := "034"%char.
Definition backslash : ascii := "092"%char.

Fixpoint escape_quoted (s : string) : string :=
  match s with
  | EmptyString => EmptyString
  | String c s' =>
      if Ascii.eqb c double_quote || Ascii.eqb c backslash
      then String backslash (String c (escape_quoted s'))
      else String c (escape_quoted s')
  end.

Definition quoted (s : string) : string :=
  String double_quote (escape_quoted s +:+ String double_quote EmptyString).

Definition print_string_atom (s : string) : string :=
  match s with
  | EmptyString => quoted s
  | String _ _ => if all_symbol_chars s then s else quoted s
  end.

Definition s_str (e : s_expr) : result string :=
  match e with
  | S_String s => Ok (print_string_atom s)
  | _ => Fatal (StdInvalidArgument "s_expr::str")
  end.

Definition get_int32 (e : s_expr) : result Z :=
  match e with
  | S_Int32 n => Ok n
  | _ => Fatal (StdInvalidArgument "s_expr::get_int32")
  end.

Definition INT_MAX : Z := 2147483647.
Definition INT_MIN : Z := -2147483648.

(** Modelled from the spec: the type of the effects word is declared in
    SideEffectSummary.h, which is not among the sources; the spec calls it a
    bitset.  It is taken as an unsigned word of 64 bits, so that the
    assignment from the [int] that [std::stoi] returns changes a negative
    value only; no statement below depends on the width. *)
Definition to_effects_t (z : Z) : Z := z mod 2 ^ 64.

(** [s_expr(idx)] takes an [int32_t]. *)
Definition to_int32 (z : Z) : Z := (z + 2 ^ 31) mod 2 ^ 32 - 2 ^ 31.

(** *** [std::to_string] and [std::stoi] *)

Definition digit_char (d : Z) : ascii :=
  ascii_of_nat (Z.to_nat (48 + d)).

Definition digit_value (c : ascii) : option Z :=
  let n := Z.of_nat (nat_of_ascii c) in
  if (48 <=? n)%Z && (n <=? 57)%Z then Some (n - 48)%Z else None.

(** [isspace] in the C locale: space and the control characters 9 to 13. *)
Definition is_space (c : ascii) : bool :=
  let n := Z.of_nat (nat_of_ascii c) in
  (n =? 32)%Z || ((9 <=? n)%Z && (n <=? 13)%Z).

Fixpoint digits_of (fuel : nat) (n : Z) (acc : string) : string :=
  match fuel with
  | O => acc
  | S fuel' =>
      let acc' := String (digit_char (n mod 10)) acc in
      if (n / 10 =? 0)%Z then acc' else digits_of fuel' (n / 10) acc'
  end.

Definition decimal (n : Z) : string :=
  digits_of (S (Z.to_nat (Z.log2 n))) n EmptyString.

Definition to_string (n : Z) : string :=
  if (n <? 0)%Z then String "-" (decimal (- n)) else decimal n.

Fixpoint skip_spaces (s : string) : string :=
  match s with
  | String c s' => if is_space c then skip_spaces s' else s
  | EmptyString => s
  end.

(** The digits are consumed up to the first character that is not one. *)
Fixpoint accumulate_digits (s : string) (acc : Z) : Z :=
  match s with
  | String c s' =>
      match digit_value c with
      | Some d => accumulate_digits s' (10 * acc + d)
      | None => acc
      end
  | EmptyString => acc
  end.

Definition starts_with_digit (s : string) : bool :=
  match s with
  | String c _ => bool_decide (is_Some (digit_value c))
  | EmptyString => false
  end.

(** [std::stoi(str)] in base 10: leading white space, an optional sign, then
    digits; [invalid_argument] when there is no digit, [out_of_range] when the
    value is not an [int].  What follows the digits is not looked at. *)
Definition stoi (str : string) : result Z :=
  let s := skip_spaces str in
  let '(negative, s) :=
    match s with
    | String "-" s' => (true, s')
    | String "+" s' => (false, s')
    | _ => (false, s)
    end in
  if starts_with_digit s then
    let v := accumulate_digits s 0 in
    let v := if negative : bool then (- v)%Z else v in
    if (INT_MIN <=? v)%Z && (v <=? INT_MAX)%Z then Ok v
    else Fatal (StdOutOfRange "stoi")
  else Fatal (StdInvalidArgument "stoi").

Definition to_s_expr (summary : Summary) : s_expr :=
  S_List
    [ S_String (to_string (effects summary));
      S_List (map (λ idx : param_idx_t, S_Int32 (to_int32 (Z.of_N idx)))
                  (elements (modified_params summary))) ].

Definition from_s_expr (expr : s_expr) : result Summary :=
  n ← s_size expr;
  _ ← always_assert (n =? 2) "expr.size() == 2";
  e0 ← s_index expr 0;
  _ ← always_assert (is_string e0) "expr[0].is_string()";
  text ← s_str e0;
  v ← stoi text;
  e1 ← s_index expr 1;
  _ ← always_assert (is_list e1) "expr[1].is_list()";
  n1 ← s_size e1;
  params ← foldM (λ (acc : gset param_idx_t) i,
                    ei ← s_index e1 i;
                    x ← get_int32 ei;
                    Ok ({[to_param_idx_t x]} ∪ acc))
                 (seq 0 n1) ∅;
  Ok {| effects := to_effects_t v; modified_params := params |}.

(** ** Constant materialization *)

(** Modelled from the spec: the constant domains are declared in
    ConstantEnvironment.h, which is not among the sources.  A signed-constant
    domain is bottom, a range of values, or top, and holds an exact constant
    when the range is degenerate; a string domain is bottom, one known string,
    or top; [ConstantValue] is the variant over the domain kinds, of which
    [value_to_instruction_visitor] names two. *)
Inductive SignedConstantDomain : Type :=
| SCD_Bottom
| SCD_Range (lo hi : Z)
| SCD_Top.

Inductive StringDomain : Type :=
| SD_Bottom
| SD_Value (s : string)
| SD_Top.

Inductive ConstantValue : Type :=
| CV_SignedConstant (dom : SignedConstantDomain)
| CV_String (dom : StringDomain)
| CV_Other (kind : N).

Definition SignedConstantDomain_get_constant (dom : SignedConstantDomain)
  : option Z :=
  match dom with
  | SCD_Range lo hi => if (lo =? hi)%Z then Some lo else None
  | _ => None
  end.

Definition StringDomain_get_constant (dom : StringDomain) : option string :=
  match dom with
  | SD_Value s => Some s
  | _ => None
  end.

Section ValueToInstruction.
(** [opcode::dest_is_wide], a table of the instruction set. *)
Variable opcode_dest_is_wide : IROpcode → bool.

Definition dest_is_wide (insn : IRInstruction) : bool :=
  opcode_dest_is_wide (opcode insn).

(** The three [operator()] overloads, selected by the variant's kind. *)
Definition value_to_instruction_visitor (m_original : IRInstruction)
  (value : ConstantValue) : list IRInstruction :=
  match value with
  | CV_SignedConstant dom =>
      match SignedConstantDomain_get_constant dom with
      | None => []
      | Some cst =>
          let insn :=
            new_IRInstruction
              (if dest_is_wide m_original then OPCODE_CONST_WIDE
               else OPCODE_CONST) in
          let insn := set_literal cst insn in
          let insn := set_dest (dest m_original) insn in
          [insn]
      end
  | CV_String dom =>
      match StringDomain_get_constant dom with
      | None => []
      | Some cst =>
          let insn := set_string cst (new_IRInstruction OPCODE_CONST_STRING) in
          [insn;
           set_dest (dest m_original)
             (new_IRInstruction IOPCODE_MOVE_RESULT_PSEUDO_OBJECT)]
      end
  | CV_Other _ => []
  end.
End ValueToInstruction.

(** ** Required configuration parameters *)

Definition bindflags_t := Z.

Section Configurable.
(** [Json::Value], the bound type [T], its coercion [Configurable::as<T>]
    and what [reflect<T>] reports about the type are defined outside
    Configurable.h. *)
Variable JsonValue : Type.
Variable T : Type.
Variable ParamType : Type.
Variable as_T : JsonValue → bindflags_t → result T.
Variable reflect_T : T → ParamType.

Record Configurable : Type := mkConfigurable {
  get_config_name : string;
  m_parser : string → option JsonValue;
  m_reflecting : bool
}.

(** One call of [m_reflector]. *)
Record ReflectionParam : Type := mkReflectionParam {
  param_name : string;
  param_doc : string;
  param_is_required : bool;
  param_bindflags : bindflags_t;
  param_type : ParamType
}.

Definition missing_required_message (c : Configurable) (name : string)
  : string :=
  "Missing required parameter: " +:+ get_config_name c +:+ "." +:+ name.

(** The outcome is the new value of [dest]. *)
Definition parse_required (c : Configurable) (name : string) (dest : T)
  (bindflags : bindflags_t) : result T :=
  match m_parser c name with
  | Some value => as_T value bindflags
  | None => Fatal (AssertionFailure (missing_required_message c name))
  end.

Definition parse (c : Configurable) (name : string) (defaultValue dest : T)
  (bindflags : bindflags_t) : result T :=
  match m_parser c name with
  | Some value => as_T value bindflags
  | None => Ok defaultValue
  end.

(** The outcome is the new value of [dest] and the calls made to the
    reflector. *)
Definition bind_required (c : Configurable) (name : string) (dest : T)
  (doc : string) (bindflags : bindflags_t)
  : result (T * list ReflectionParam) :=
  if m_reflecting c then
    Ok (dest, [mkReflectionParam name doc true bindflags (reflect_T dest)])
  else
    dest' ← parse_required c name dest bindflags;
    Ok (dest', []).

Definition bind (c : Configurable) (name : string) (defaultValue dest : T)
  (doc : string) (bindflags : bindflags_t)
  : result (T * list ReflectionParam) :=
  if m_reflecting c then
    Ok (dest, [mkReflectionParam name doc false bindflags (reflect_T dest)])
  else
    dest' ← parse c name defaultValue dest bindflags;
    Ok (dest', []).
End Configurable.

Arguments mkConfigurable {JsonValue} _ _ _.
Arguments get_config_name {JsonValue} c.
Arguments m_parser {JsonValue} c name.
Arguments m_reflecting {JsonValue} c.
Arguments missing_required_message {JsonValue} c name.
Arguments parse_required {JsonValue T} as_T c name dest bindflags.
Arguments parse {JsonValue T} as_T c name defaultValue dest bindflags.
Arguments bind_required {JsonValue T ParamType} as_T reflect_T c name dest
  doc bindflags.
Arguments bind {JsonValue T ParamType} as_T reflect_T c name defaultValue dest
  doc bindflags.

(** ** Vocabulary of the statements *)

(** The heap writes that [analyze_instruction_effects] classifies, and the
    operand that holds the pointer written through: the object of an
    instance-field write and the array of an array-element write are source 1,
    the array of a bulk write is source 0. *)
Definition is_instance_field_write (op : IROpcode) : bool :=
  match op with
  | OPCODE_IPUT | OPCODE_IPUT_WIDE | OPCODE_IPUT_BOOLEAN | OPCODE_IPUT_BYTE
  | OPCODE_IPUT_CHAR | OPCODE_IPUT_SHORT | OPCODE_IPUT_OBJECT => true
  | _ => false
  end.

Definition is_array_element_write (op : IROpcode) : bool :=
  match op with
  | OPCODE_APUT | OPCODE_APUT_WIDE | OPCODE_APUT_BOOLEAN | OPCODE_APUT_BYTE
  | OPCODE_APUT_CHAR | OPCODE_APUT_SHORT | OPCODE_APUT_OBJECT => true
  | _ => false
  end.

Definition is_bulk_array_write (op : IROpcode) : bool :=
  match op with
  | OPCODE_FILL_ARRAY_DATA => true
  | _ => false
  end.

Definition written_through_operand (op : IROpcode) : option nat :=
  if is_instance_field_write op || is_array_element_write op then Some 1%nat
  else if is_bulk_array_write op then Some 0%nat
  else None.

Definition is_resolved_invoke (op : IROpcode) : bool :=
  match op with
  | OPCODE_INVOKE_STATIC | OPCODE_INVOKE_DIRECT | OPCODE_INVOKE_VIRTUAL => true
  | _ => false
  end.

Definition is_super_or_interface_invoke (op : IROpcode) : bool :=
  match op with
  | OPCODE_INVOKE_SUPER | OPCODE_INVOKE_INTERFACE => true
  | _ => false
  end.

Definition is_invoke (op : IROpcode) : bool :=
  is_resolved_invoke op || is_super_or_interface_invoke op.

(** A write through [r] reaches an escaped or unknown object. *)
Definition write_escapes (env : Environment) (r : reg_t) : bool :=
  match get_pointers env r with
  | PS_Value elts => existsb (may_have_escaped env) elts
  | _ => true
  end.

(** A write through [r] reaches the object of parameter [p]: a load-param
    allocation site that has not escaped. *)
Definition write_reaches_param (b : SummaryBuilder) (env : Environment)
  (r : reg_t) (p : param_idx_t) : Prop :=
  ∃ elts i, get_pointers env r = PS_Value elts ∧ i ∈ elts ∧
    may_have_escaped env i = false ∧
    is_load_param_object (opcode (target i)) = true ∧
    m_param_insn_map b !! addr i = Some p.

(** Every load-param allocation site the builder looks up is one of the
    method's parameter instructions. *)
Definition params_known (b : SummaryBuilder) (env : Environment)
  (elts : list insn_ptr) : Prop :=
  ∀ i, i ∈ elts → may_have_escaped env i = false →
    is_load_param_object (opcode (target i)) = true →
    is_Some (m_param_insn_map b !! addr i).

Definition params_known_through (b : SummaryBuilder) (env : Environment)
  (r : reg_t) : Prop :=
  ∀ elts, get_pointers env r = PS_Value elts → params_known b env elts.

(** The scan meets [insn] in a block whose entry state is not bottom. *)
Definition scanned (b : SummaryBuilder) (insn : insn_ptr) : Prop :=
  ∃ block, block ∈ cfg_blocks (m_code b) ∧
    is_bottom (get_entry_state_at (m_ptrs_fp_iter b) block) = false ∧
    insn ∈ block_insns block.

(** [s'] has every effect of [s]. *)
Definition effects_included (s s' : Summary) : Prop :=
  ∀ e, has_effect e s → has_effect e s'.


(** The write through the argument register of parameter [idx] at a call
    reaches an escaped or unknown object. *)
Definition argument_write_escapes (env : Environment) (insn : insn_ptr)
  (idx : param_idx_t) : bool :=
  match srcs (target insn) !! N.to_nat idx with
  | Some r => write_escapes env r
  | None => false
  end.


(** ** The rest of the summary analysis *)

(** [Summary(const std::initializer_list<param_idx_t>&)]: no effect, the
    listed parameters (the constructor is declared with [Summary]). *)
Definition Summary_of_params (params : list param_idx_t) : Summary :=
  {| effects := EFF_NONE; modified_params := list_to_set params |}.

(** [walk::parallel::code(scope, f)] calls [f] on every method of the scope
    that has code, on worker threads.  The model makes the calls one after
    the other in the order of [scope]; a call that throws ends the walk. *)
Fixpoint walk_code
  (visit : DexMethod → gmap positive Summary → run (gmap positive Summary))
  (scope : list DexMethod) (summary_cmap : gmap positive Summary)
  : run (gmap positive Summary) :=
  match scope with
  | [] => Some (Ok summary_cmap)
  | method :: scope' =>
      match get_code method with
      | None => walk_code visit scope' summary_cmap
      | Some _ =>
          match visit method summary_cmap with
          | None => None
          | Some (Fatal e) => Some (Fatal e)
          | Some (Ok summary_cmap') => walk_code visit scope' summary_cmap'
          end
      end
  end.

(** [side_effects::analyze_scope].  [object_init] is the method reference of
    [Ljava/lang/Object;.<init>:()V]; the assignment through [operator[]]
    replaces an entry, [insert] keeps the entry that is there. *)
Definition analyze_scope (fuel : nat) (object_init : positive)
  (scope : list DexMethod) (call_graph : gmap positive (list Edge))
  (ptrs_fp_iter_map : gmap positive FixpointIterator)
  (summary_map : gmap positive Summary) : run (gmap positive Summary) :=
  let summary_map := <[object_init := Summary_of_params [0%N]]> summary_map in
  let summary_cmap := summary_map ∪ ∅ in
  match walk_code
          (λ method cmap,
             analyze_method_recursive fuel method call_graph ptrs_fp_iter_map
               ∅ cmap)
          scope summary_cmap with
  | None => None
  | Some (Fatal e) => Some (Fatal e)
  | Some (Ok summary_cmap') => Some (Ok (summary_map ∪ summary_cmap'))
  end.

(** The least summary above two summaries. *)
Definition Summary_join (a b : Summary) : Summary :=
  {| effects := Z.lor (effects a) (effects b);
     modified_params := modified_params a ∪ modified_params b |}.

(** Every bit of [e] is a bit of [mask]. *)
Definition within (e mask : Z) : Prop := Z.land e mask = e.

(** The effects that the instruction scan sets by itself. *)
Definition scan_effects : Z :=
  Z.lor EFF_THROWS
    (Z.lor EFF_LOCKS (Z.lor EFF_WRITE_MAY_ESCAPE EFF_UNKNOWN_INVOKE)).

(** The builder with the blocks of unreachable entry state left out. *)
Definition without_unreachable_blocks (b : SummaryBuilder) : SummaryBuilder :=
  {| m_param_insn_map := m_param_insn_map b;
     m_invoke_to_summary_cmap := m_invoke_to_summary_cmap b;
     m_ptrs_fp_iter := m_ptrs_fp_iter b;
     m_code :=
       {| get_param_instructions := get_param_instructions (m_code b);
          cfg_blocks :=
            filter (λ block,
                      is_bottom (get_entry_state_at (m_ptrs_fp_iter b) block)
                      = false)
                   (cfg_blocks (m_code b)) |} |}.

(** The builder with the blocks of its code in another order. *)
Definition with_blocks (blocks : list Block) (b : SummaryBuilder)
  : SummaryBuilder :=
  {| m_param_insn_map := m_param_insn_map b;
     m_invoke_to_summary_cmap := m_invoke_to_summary_cmap b;
     m_ptrs_fp_iter := m_ptrs_fp_iter b;
     m_code :=
       {| get_param_instructions := get_param_instructions (m_code b);
          cfg_blocks := blocks |} |}.

(** ** Transform statistics *)

(** [size_t] arithmetic. *)
Definition to_size_t (z : Z) : Z := z mod 2 ^ 64.

Record Stats : Type := mkStats {
  branches_removed : Z;
  materialized_consts : Z
}.

(** [Stats result;] *)
Definition Stats_default : Stats :=
  {| branches_removed := 0; materialized_consts := 0 |}.

(** [Stats::operator+] *)
Definition Stats_add (this that : Stats) : Stats :=
  {| branches_removed :=
       to_size_t (branches_removed this + branches_removed that);
     materialized_consts :=
       to_size_t (materialized_consts this + materialized_consts that) |}.

(** The counters hold [size_t] values. *)
Definition Stats_in_range (s : Stats) : Prop :=
  (0 ≤ branches_removed s < 2 ^ 64)%Z ∧ (0 ≤ materialized_consts s < 2 ^ 64)%Z.

(** ** [Configurable::after_configuration] *)

Section AfterConfiguration.
(** The target type of [std::function<void()>]; a [std::function] holds a
    target or is empty. *)
Variable Callback : Type.

(** The outcome is the new value of [m_after_configuration]. *)
Definition after_configuration (m_after_configuration : option Callback)
  (after_configuration_fn : option Callback) : result (option Callback) :=
  _ ← always_assert
        (negb (bool_decide (is_Some m_after_configuration)))
        "after_configuration may only be called once";
  Ok after_configuration_fn.
End AfterConfiguration.

Arguments after_configuration {Callback} m_after_configuration
  after_configuration_fn.

Arguments param_name {ParamType} r.
Arguments param_doc {ParamType} r.
Arguments param_is_required {ParamType} r.
Arguments param_bindflags {ParamType} r.
Arguments param_type {ParamType} r.

#[global] Instance result_fmap : FMap result := λ A B f r,
  match r with
  | Ok a => Ok (f a)
  | Fatal e => Fatal e
  end.

(** A callee of some edge of the call graph, with code, at address [k]. *)
Definition callee_with_code (call_graph : gmap positive (list Edge))
  (k : positive) : Prop :=
  ∃ node edges edge, call_graph !! node = Some edges ∧ edge ∈ edges ∧
    method_addr (callee edge) = k ∧ is_Some (get_code (callee edge)).

Definition is_int32 (e : s_expr) : bool :=
  match e with S_Int32 _ => true | _ => false end.

(** The parameter index that [from_s_expr] reads from an element of the
    index list. *)
Definition read_param (e : s_expr) : option param_idx_t :=
  match e with
  | S_Int32 n => Some (to_param_idx_t n)
  | _ => None
  end.

(** Texts of letters and digits only. *)
Fixpoint all_alnum (s : string) : bool :=
  match s with
  | EmptyString => true
  | String c s' => is_alnum c && all_alnum s'
  end.

(** ** Vocabulary for cycles of the call graph *)

(** Methods are known by their address: wherever the call graph names the
    address of [method] as a callee, it names [method]. *)
Definition names_method (call_graph : gmap positive (list Edge))
  (method : DexMethod) : Prop :=
  ∀ k edges edge, call_graph !! k = Some edges → edge ∈ edges →
    method_addr (callee edge) = method_addr method → callee edge = method.

(** Among [edges], every edge of the invoke instruction [insn] goes to
    [method]. *)
Definition sole_callee (edges : list Edge) (insn : insn_ptr)
  (method : DexMethod) : Prop :=
  ∀ edge, edge ∈ edges → addr (invoke_insn edge) = addr insn →
    method_addr (callee edge) = method_addr method.

(** The shared map while [kA] is on the recursion path: no summary for [kA],
    and the summary of [kB], once there, has unknown-invoke. *)
Definition back_edge_unresolved (kA kB : positive)
  (summary_cmap : gmap positive Summary) : Prop :=
  summary_cmap !! kA = None ∧
  ∀ s, summary_cmap !! kB = Some s → has_effect EFF_UNKNOWN_INVOKE s.
(** ** Sample inputs

    A method with two object parameters.  Register 0 may hold parameter 0 or
    a local allocation, register 1 points to nothing, register 2 may hold an
    escaped object or parameter 1, every other register is unknown. *)

Definition sample_load_param (a : positive) (r : reg_t) : insn_ptr :=
  mkPtr a (mkInsn IOPCODE_LOAD_PARAM_OBJECT [] r 0 None).

Definition sample_param0 : insn_ptr := sample_load_param 1 0%N.
Definition sample_param1 : insn_ptr := sample_load_param 2 1%N.
Definition sample_local : insn_ptr :=
  mkPtr 3 (mkInsn (OPCODE_OTHER 34) [] 4%N 0 None).
Definition sample_escaped : insn_ptr :=
  mkPtr 4 (mkInsn (OPCODE_OTHER 34) [] 5%N 0 None).

Definition sample_env : Environment :=
  {| is_bottom := false;
     get_pointers := λ r,
       match r with
       | 0%N => PS_Value [sample_param0; sample_local]
       | 1%N => PS_Value []
       | 2%N => PS_Value [sample_escaped; sample_param1]
       | _ => PS_Top
       end;
     may_have_escaped := λ i, bool_decide (addr i = 4%positive) |}.

Definition sample_fp_iter : FixpointIterator :=
  {| get_entry_state_at := λ _, sample_env;
     analyze_instruction := λ _ env, env |}.

Definition sample_iput : insn_ptr :=
  mkPtr 10 (mkInsn OPCODE_IPUT [3%N; 0%N] 0%N 0 None).
Definition sample_invoke_static : insn_ptr :=
  mkPtr 11 (mkInsn OPCODE_INVOKE_STATIC [2%N; 0%N] 0%N 0 None).
Definition sample_invoke_interface : insn_ptr :=
  mkPtr 12 (mkInsn OPCODE_INVOKE_INTERFACE [0%N] 0%N 0 None).
Definition sample_throw : insn_ptr :=
  mkPtr 13 (mkInsn OPCODE_THROW [0%N] 0%N 0 None).

Definition sample_code : IRCode :=
  {| get_param_instructions := [sample_param0; sample_param1];
     cfg_blocks :=
       [mkBlock 0 [sample_param0; sample_param1; sample_iput;
                   sample_invoke_static; sample_throw]] |}.

Definition sample_builder : SummaryBuilder :=
  SummaryBuilder_new ∅ sample_fp_iter sample_code.

(** The callee of [sample_invoke_static] throws and modifies its second
    parameter. *)
Definition sample_callee_summary : Summary :=
  {| effects := EFF_THROWS; modified_params := {[1%N]} |}.

Definition sample_builder_resolved : SummaryBuilder :=
  SummaryBuilder_new {[11%positive := sample_callee_summary]}
    sample_fp_iter sample_code.

(** Two methods that call each other, and a method marked
    do-not-optimize. *)
Definition sample_invoke_AB : insn_ptr :=
  mkPtr 21 (mkInsn OPCODE_INVOKE_STATIC [] 0%N 0 None).
Definition sample_invoke_BA : insn_ptr :=
  mkPtr 22 (mkInsn OPCODE_INVOKE_VIRTUAL [0%N] 0%N 0 None).

Definition sample_code_A : IRCode :=
  {| get_param_instructions := [];
     cfg_blocks := [mkBlock 0 [sample_invoke_AB]] |}.
Definition sample_code_B : IRCode :=
  {| get_param_instructions := [sample_param0];
     cfg_blocks := [mkBlock 0 [sample_param0; sample_invoke_BA; sample_throw]] |}.

Definition sample_method_A : DexMethod := mkMethod 100 (Some sample_code_A) false.
Definition sample_method_B : DexMethod := mkMethod 200 (Some sample_code_B) false.

Definition sample_call_graph : gmap positive (list Edge) :=
  {[ 100%positive := [mkEdge sample_method_B sample_invoke_AB];
     200%positive := [mkEdge sample_method_A sample_invoke_BA] ]}.

Definition sample_fp_iter_map : gmap positive FixpointIterator :=
  {[ 100%positive := sample_fp_iter; 200%positive := sample_fp_iter;
     300%positive := sample_fp_iter ]}.

Definition sample_method_no_optimize : DexMethod :=
  mkMethod 300 (Some sample_code) true.

(** A table of wide destinations, a wide move and a plain move. *)
Definition sample_dest_is_wide (op : IROpcode) : bool :=
  match op with
  | OPCODE_CONST_WIDE | OPCODE_OTHER 4%N => true
  | _ => false
  end.

Definition sample_move_wide : IRInstruction :=
  mkInsn (OPCODE_OTHER 4) [6%N] 4%N 0 None.
Definition sample_move : IRInstruction :=
  mkInsn (OPCODE_OTHER 1) [6%N] 2%N 0 None.

(** A configurable whose configuration holds one integer parameter; the
    coercion of an integer never fails. *)
Definition sample_configurable : Configurable Z :=
  {| get_config_name := "SamplePass";
     m_parser := λ name, if String.eqb name "max_depth" then Some 7%Z else None;
     m_reflecting := false |}.

Definition sample_as_int (value : Z) (_ : bindflags_t) : result Z := Ok value.

(** The same configurable while its bindings are reflected. *)
Definition sample_reflecting : Configurable Z :=
  {| get_config_name := "SamplePass";
     m_parser := λ _, None;
     m_reflecting := true |}.

(** The sample code split into two blocks. *)
Definition sample_code_two_blocks : IRCode :=
  {| get_param_instructions := [sample_param0; sample_param1];
     cfg_blocks :=
       [mkBlock 0 [sample_param0; sample_param1; sample_iput];
        mkBlock 1 [sample_invoke_static; sample_throw]] |}.

Definition sample_builder_two_blocks : SummaryBuilder :=
  SummaryBuilder_new ∅ sample_fp_iter sample_code_two_blocks.

(** A builder whose callee summary names a third parameter at a call with
    two arguments. *)
Definition sample_builder_stale : SummaryBuilder :=
  SummaryBuilder_new {[11%positive := Summary_of_params [2%N]]}
    sample_fp_iter sample_code.

(** A third method that only throws, and a call graph in which the virtual
    call of [sample_method_B] has two callees: the third method and
    [sample_method_A]. *)
Definition sample_code_C : IRCode :=
  {| get_param_instructions := [];
     cfg_blocks := [mkBlock 0 [sample_throw]] |}.

Definition sample_method_C : DexMethod := mkMethod 400 (Some sample_code_C) false.

Definition sample_call_graph_two_callees : gmap positive (list Edge) :=
  {[ 100%positive := [mkEdge sample_method_B sample_invoke_AB];
     200%positive := [mkEdge sample_method_C sample_invoke_BA;
                      mkEdge sample_method_A sample_invoke_BA] ]}.

Definition sample_fp_iter_map_two_callees : gmap positive FixpointIterator :=
  {[ 100%positive := sample_fp_iter; 200%positive := sample_fp_iter;
     400%positive := sample_fp_iter ]}.
(** * Properties *)

(** ** Effect words *)

Lemma land_lor_same (a e : Z) : Z.land (Z.lor a e) e = e.
Proof.
  apply Z.bits_inj'; intros n _.
  rewrite Z.land_spec, Z.lor_spec.
  destruct (Z.testbit a n), (Z.testbit e n); reflexivity.
Qed.

Lemma land_lor_keep (a b e : Z) : Z.land a e = e → Z.land (Z.lor a b) e = e.
Proof.
  intros H. apply Z.bits_inj'; intros n _.
  apply (f_equal (λ z, Z.testbit z n)) in H.
  rewrite Z.land_spec in H. rewrite Z.land_spec, Z.lor_spec.
  destruct (Z.testbit a n), (Z.testbit b n), (Z.testbit e n);
    simpl in *; congruence.
Qed.

Lemma land_lor_keep_r (a b e : Z) : Z.land b e = e → Z.land (Z.lor a b) e = e.
Proof. rewrite Z.lor_comm. apply land_lor_keep. Qed.

Lemma lor_lor_same (a e : Z) : Z.lor (Z.lor a e) e = Z.lor a e.
Proof. by rewrite <- Z.lor_assoc, Z.lor_diag. Qed.

Lemma has_effect_or_effects (e : Z) (s : Summary) :
  has_effect e (or_effects e s).
Proof. apply land_lor_same. Qed.

Lemma effects_included_refl (s : Summary) : effects_included s s.
Proof. by intros e. Qed.

Lemma effects_included_trans (s1 s2 s3 : Summary) :
  effects_included s1 s2 → effects_included s2 s3 → effects_included s1 s3.
Proof. intros H12 H23 e He. by apply H23, H12. Qed.

Lemma effects_included_eq (s s' : Summary) :
  effects s' = effects s → effects_included s s'.
Proof. intros Heq e. unfold has_effect. by rewrite Heq. Qed.

Lemma effects_included_lor (s s' : Summary) (e : Z) :
  effects s' = Z.lor (effects s) e → effects_included s s'.
Proof.
  intros Heq e' He. unfold has_effect in *. rewrite Heq.
  by apply land_lor_keep.
Qed.

Lemma effects_included_or_effects (e : Z) (s : Summary) :
  effects_included s (or_effects e s).
Proof. by apply effects_included_lor with e. Qed.

Create HintDb effects.
#[local] Hint Resolve has_effect_or_effects effects_included_refl
  effects_included_or_effects : effects.

(** ** The error monad *)

Lemma bind_Ok_inv {A B : Type} (m : result A) (f : A → result B) (y : B) :
  m ≫= f = Ok y → ∃ x, m = Ok x ∧ f x = Ok y.
Proof. destruct m as [x|e]; [by exists x | done]. Qed.

Lemma foldM_app {A S : Type} (body : S → A → result S) (l1 l2 : list A) (s : S) :
  foldM body (l1 ++ l2) s = foldM body l1 s ≫= foldM body l2.
Proof.
  revert s. induction l1 as [|x l1 IH]; intros s; simpl; [done|].
  destruct (body s x) as [s'|e]; simpl; [apply IH | done].
Qed.

(** An invariant of the loop state is kept by a loop that ends normally. *)
Lemma foldM_invariant {A S : Type} (P : S → Prop) (body : S → A → result S)
  (l : list A) (s s' : S) :
  (∀ x t t', x ∈ l → P t → body t x = Ok t' → P t') →
  P s → foldM body l s = Ok s' → P s'.
Proof.
  revert s. induction l as [|x l IH]; intros s Hstep Hs Hrun; simpl in Hrun.
  - by inversion Hrun; subst.
  - apply bind_Ok_inv in Hrun as (t & Hx & Hrest).
    apply (IH t); [| |done].
    + intros y u u' Hy. apply Hstep. by right.
    + apply (Hstep x s t); [by left|done|done].
Qed.

(** Case analysis on the membership in a list given by its elements. *)
Ltac elem_of_cases H :=
  repeat (apply elem_of_cons in H as [->|H]);
  [..|by apply elem_of_nil in H].

(** ** Classification of one heap write *)

Lemma classify_pointer_spec (b : SummaryBuilder) (env : Environment)
  (s : Summary) (i : insn_ptr) :
  (may_have_escaped env i = false →
   is_load_param_object (opcode (target i)) = true →
   is_Some (m_param_insn_map b !! addr i)) →
  ∃ s', classify_pointer b env s i = Ok s' ∧
    effects s' = (if may_have_escaped env i
                  then Z.lor (effects s) EFF_WRITE_MAY_ESCAPE else effects s) ∧
    ∀ p, p ∈ modified_params s' ↔
         p ∈ modified_params s ∨
         (may_have_escaped env i = false ∧
          is_load_param_object (opcode (target i)) = true ∧
          m_param_insn_map b !! addr i = Some p).
Proof.
  intros Hknown. unfold classify_pointer.
  destruct (may_have_escaped env i) eqn:Hesc; simpl.
  - eexists; split; [done|]. split; [done|]. intros p; simpl.
    intuition discriminate.
  - destruct (is_load_param_object (opcode (target i))) eqn:Hlp.
    + destruct Hknown as [idx Hidx]; [done..|]. rewrite Hidx.
      eexists; split; [done|]. split; [done|]. intros p; simpl.
      rewrite elem_of_union, elem_of_singleton. intuition congruence.
    + eexists; split; [done|]. split; [done|]. intros p.
      intuition discriminate.
Qed.

Lemma classify_elements_spec (b : SummaryBuilder) (env : Environment)
  (elts : list insn_ptr) (s : Summary) :
  params_known b env elts →
  ∃ s', foldM (classify_pointer b env) elts s = Ok s' ∧
    effects s' = (if existsb (may_have_escaped env) elts
                  then Z.lor (effects s) EFF_WRITE_MAY_ESCAPE else effects s) ∧
    ∀ p, p ∈ modified_params s' ↔
         p ∈ modified_params s ∨
         ∃ i, i ∈ elts ∧ may_have_escaped env i = false ∧
              is_load_param_object (opcode (target i)) = true ∧
              m_param_insn_map b !! addr i = Some p.
Proof.
  revert s. induction elts as [|i elts IH]; intros s Hknown; simpl.
  - exists s. split; [done|]. split; [done|]. intros p. split; [auto|].
    intros [H|(i & Hi & _)]; [done|]. by apply elem_of_nil in Hi.
  - destruct (classify_pointer_spec b env s i) as (s1 & Hrun1 & Heff1 & Hmp1).
    { apply Hknown. by left. }
    destruct (IH s1) as (s2 & Hrun2 & Heff2 & Hmp2).
    { intros j Hj. apply Hknown. by right. }
    exists s2. rewrite Hrun1; simpl. split; [done|]. split.
    + rewrite Heff2, Heff1.
      destruct (may_have_escaped env i), (existsb (may_have_escaped env) elts);
        simpl; auto using lor_lor_same.
    + intros p. rewrite Hmp2, Hmp1. split.
      * intros [[H|(Hesc & Hlp & Hp)]|(j & Hj & H)]; [by left| |].
        -- right. exists i. split; [by left|done].
        -- right. exists j. split; [by right|done].
      * intros [H|(j & Hj & H)]; [by left; left|].
        apply elem_of_cons in Hj as [->|Hj]; [by left; right|].
        right. by exists j.
Qed.

Lemma classify_heap_write_spec (b : SummaryBuilder) (env : Environment)
  (r : reg_t) (s : Summary) :
  params_known_through b env r →
  ∃ s', classify_heap_write b env r s = Ok s' ∧
    effects s' = (if write_escapes env r
                  then Z.lor (effects s) EFF_WRITE_MAY_ESCAPE else effects s) ∧
    ∀ p, p ∈ modified_params s' ↔
         p ∈ modified_params s ∨ write_reaches_param b env r p.
Proof.
  intros Hknown. unfold classify_heap_write, write_escapes, write_reaches_param.
  destruct (get_pointers env r) as [|elts|] eqn:Hptr; simpl.
  - eexists; split; [done|]. split; [done|]. intros p; simpl.
    split; [auto|]. intros [H|(? & ? & ? & _)]; [done|discriminate].
  - destruct (classify_elements_spec b env elts s) as (s' & Hrun & Heff & Hmp).
    { by apply Hknown. }
    exists s'. split; [done|]. split; [done|]. intros p. rewrite Hmp.
    split; (intros [H|H]; [by left|right]).
    + destruct H as (i & H). by exists elts, i.
    + destruct H as (elts' & i & Heq & H). inversion Heq; subst. by exists i.
  - eexists; split; [done|]. split; [done|]. intros p; simpl.
    split; [auto|]. intros [H|(? & ? & ? & _)]; [done|discriminate].
Qed.

Lemma classify_heap_write_included (b : SummaryBuilder) (env : Environment)
  (r : reg_t) (s s' : Summary) :
  classify_heap_write b env r s = Ok s' → effects_included s s'.
Proof.
  unfold classify_heap_write.
  destruct (get_pointers env r) as [|elts|]; simpl.
  - intros [= <-]. auto with effects.
  - apply (foldM_invariant (effects_included s)); [|auto with effects].
    intros i t t' _ Ht Hstep. apply (effects_included_trans _ t); [done|].
    unfold classify_pointer in Hstep.
    destruct (may_have_escaped env i); simpl in Hstep.
    + inversion Hstep. apply effects_included_or_effects.
    + destruct (is_load_param_object _);
        [|inversion Hstep; subst; apply effects_included_refl].
      destruct (_ !! _); inversion Hstep. by apply effects_included_eq.
  - intros [= <-]. apply effects_included_or_effects.
Qed.

(** ** The instruction scan only adds effects *)

Lemma analyze_instruction_effects_included (b : SummaryBuilder)
  (env : Environment) (insn : insn_ptr) (s s' : Summary) :
  analyze_instruction_effects b env insn s = Ok s' → effects_included s s'.
Proof.
  unfold analyze_instruction_effects.
  destruct (opcode (target insn));
    try (intros [= <-]; by auto with effects);
    try (intros Hrun; apply bind_Ok_inv in Hrun as (r & _ & Hrun);
         by apply classify_heap_write_included in Hrun).
  all: destruct (m_invoke_to_summary_cmap b !! addr insn) as [callee_summary|];
    [|intros [= <-]; by auto with effects].
  all: apply (foldM_invariant (effects_included s)); [|by auto with effects].
  all: intros idx t t' _ Ht Hstep;
    apply bind_Ok_inv in Hstep as (r & _ & Hstep);
    apply (effects_included_trans _ t); [done|];
    by apply classify_heap_write_included in Hstep.
Qed.

(** A loop that keeps [P] and meets an element whose body establishes [P]
    ends with [P]. *)
Lemma foldM_establish {A S : Type} (P : S → Prop) (body : S → A → result S)
  (l : list A) (x : A) (s s' : S) :
  x ∈ l →
  (∀ y t t', body t y = Ok t' → P t → P t') →
  (∀ t t', body t x = Ok t' → P t') →
  foldM body l s = Ok s' → P s'.
Proof.
  intros Hx Hkeep Hset Hrun.
  apply list_elem_of_split in Hx as (l1 & l2 & ->).
  rewrite foldM_app in Hrun. apply bind_Ok_inv in Hrun as (t & _ & Hrun).
  simpl in Hrun. apply bind_Ok_inv in Hrun as (t' & Hstep & Hrun).
  apply (foldM_invariant P body l2 t' s'); [|by eapply Hset|done].
  intros y u u' _ Hu Hy. by eapply Hkeep.
Qed.

Lemma scan_instruction_included (b : SummaryBuilder)
  (st st' : Environment * Summary) (insn : insn_ptr) :
  scan_instruction b st insn = Ok st' → effects_included st.2 st'.2.
Proof.
  unfold scan_instruction. intros Hrun.
  apply bind_Ok_inv in Hrun as (s1 & Hrun & [= <-]).
  by apply analyze_instruction_effects_included in Hrun.
Qed.

Lemma scan_block_included (b : SummaryBuilder) (s s' : Summary) (block : Block) :
  scan_block b s block = Ok s' → effects_included s s'.
Proof.
  unfold scan_block. destruct (is_bottom _).
  - intros [= <-]. apply effects_included_refl.
  - intros Hrun. apply bind_Ok_inv in Hrun as (st & Hrun & [= <-]).
    apply (foldM_invariant (λ st, effects_included s st.2)) in Hrun;
      [done| |apply effects_included_refl].
    intros insn t t' _ Ht Hstep. apply (effects_included_trans _ t.2); [done|].
    by apply scan_instruction_included in Hstep.
Qed.

(** An effect that the analysis of a scanned instruction always sets is an
    effect of the summary that [build] returns. *)
Lemma build_scanned_effect (b : SummaryBuilder) (insn : insn_ptr) (e : Z)
  (summary : Summary) :
  scanned b insn →
  (∀ env s s', analyze_instruction_effects b env insn s = Ok s' →
               has_effect e s') →
  build b = Ok summary → has_effect e summary.
Proof.
  intros (block & Hblock & Hreach & Hinsn) Hset. unfold build.
  apply (foldM_establish (has_effect e) (scan_block b) _ block); [done| |].
  - intros blk t t' Hrun Ht. by apply (scan_block_included b t t' blk).
  - intros t t'. unfold scan_block. rewrite Hreach. intros Hrun.
    apply bind_Ok_inv in Hrun as (st & Hrun & [= <-]).
    apply (foldM_establish (λ st, has_effect e st.2)) with (x := insn) in Hrun;
      [done|done| |].
    + intros i u u' Hstep Hu.
      by apply (scan_instruction_included b u u' i).
    + intros u u' Hstep. unfold scan_instruction in Hstep.
      apply bind_Ok_inv in Hstep as (s1 & Hstep & [= <-]). simpl.
      by eapply Hset.
Qed.

Lemma build_included_scan (b : SummaryBuilder) (summary : Summary) :
  build b = Ok summary → effects_included Summary_default summary.
Proof.
  unfold build.
  apply (foldM_invariant (effects_included Summary_default));
    [|apply effects_included_refl].
  intros blk t t' _ Ht Hrun. apply (effects_included_trans _ t); [done|].
  by apply scan_block_included in Hrun.
Qed.

(** ** Heap writes *)

(** C1.  An instance-field, array-element or bulk-array write through
    register [r].  When the pointer value of [r] is not a concrete set, the
    summary gains escaping-write and nothing else changes.  When it is the
    set [elts], the effects gain escaping-write exactly when some site of the
    set may have escaped, and the parameters recorded are those of the sites
    that have not escaped and are load-param-object instructions; a site that
    has not escaped and is not a parameter adds nothing. *)
Theorem heap_write_classification (b : SummaryBuilder) (env : Environment)
  (insn : insn_ptr) (summary : Summary) (k : nat) (r : reg_t) :
  written_through_operand (opcode (target insn)) = Some k →
  srcs (target insn) !! k = Some r →
  (is_value (get_pointers env r) = false →
   analyze_instruction_effects b env insn summary
   = Ok (or_effects EFF_WRITE_MAY_ESCAPE summary)) ∧
  (∀ elts, get_pointers env r = PS_Value elts → params_known b env elts →
   ∃ summary',
     analyze_instruction_effects b env insn summary = Ok summary' ∧
     effects summary'
     = (if existsb (may_have_escaped env) elts
        then Z.lor (effects summary) EFF_WRITE_MAY_ESCAPE
        else effects summary) ∧
     ∀ p, p ∈ modified_params summary' ↔
          p ∈ modified_params summary ∨
          ∃ i, i ∈ elts ∧ may_have_escaped env i = false ∧
               is_load_param_object (opcode (target i)) = true ∧
               m_param_insn_map b !! addr i = Some p).
Proof.
  intros Hop Hsrc.
  assert (analyze_instruction_effects b env insn summary
          = classify_heap_write b env r summary) as ->.
  { unfold analyze_instruction_effects, written_through_operand, src in *.
    destruct (opcode (target insn)); simpl in Hop; try discriminate;
      injection Hop as <-; by rewrite Hsrc. }
  split.
  - intros Hval. unfold classify_heap_write. by rewrite Hval.
  - intros elts Hptr Hknown. unfold classify_heap_write. rewrite Hptr; simpl.
    by apply classify_elements_spec.
Qed.

Lemma heap_write_classification_witness :
  ∃ summary',
    analyze_instruction_effects sample_builder sample_env sample_iput
      Summary_default = Ok summary' ∧
    effects summary' = EFF_NONE ∧
    ∀ p, p ∈ modified_params summary' ↔
         p ∈ modified_params Summary_default ∨
         ∃ i, i ∈ [sample_param0; sample_local] ∧
              may_have_escaped sample_env i = false ∧
              is_load_param_object (opcode (target i)) = true ∧
              m_param_insn_map sample_builder !! addr i = Some p.
Proof.
  refine (proj2 (heap_write_classification sample_builder sample_env
                   sample_iput Summary_default 1 0%N eq_refl eq_refl)
                [sample_param0; sample_local] eq_refl _).
  intros i Hi _ Hparam. elem_of_cases Hi; [by eexists|discriminate].
Defined.

(** C9.  A heap write through a register whose pointer value is a concrete
    but empty set leaves the summary as it was: no effect bit, no
    parameter. *)
Theorem empty_pointer_set_adds_nothing (b : SummaryBuilder) (env : Environment)
  (r : reg_t) (summary : Summary) :
  get_pointers env r = PS_Value [] →
  classify_heap_write b env r summary = Ok summary.
Proof. intros Hptr. unfold classify_heap_write. by rewrite Hptr. Qed.

Lemma empty_pointer_set_adds_nothing_witness :
  classify_heap_write sample_builder sample_env 1%N sample_callee_summary
  = Ok sample_callee_summary.
Proof.
  exact (empty_pointer_set_adds_nothing sample_builder sample_env 1%N
           sample_callee_summary eq_refl).
Defined.

(** ** Calls *)

Lemma analyze_unresolved_invoke (b : SummaryBuilder) (insn : insn_ptr) :
  is_invoke (opcode (target insn)) = true →
  m_invoke_to_summary_cmap b !! addr insn = None ∨
  is_super_or_interface_invoke (opcode (target insn)) = true →
  ∀ env s, analyze_instruction_effects b env insn s
           = Ok (or_effects EFF_UNKNOWN_INVOKE s).
Proof.
  intros Hinvoke Hcase env s. unfold analyze_instruction_effects, is_invoke in *.
  destruct (opcode (target insn)); simpl in Hinvoke; try discriminate;
    try done;
    destruct Hcase as [Hnone|Hsi]; try discriminate; by rewrite Hnone.
Qed.

(** A resolved call gives the caller every effect of the callee summary. *)
Lemma analyze_resolved_invoke_imports (b : SummaryBuilder) (insn : insn_ptr)
  (callee_summary : Summary) (e : Z) :
  is_resolved_invoke (opcode (target insn)) = true →
  m_invoke_to_summary_cmap b !! addr insn = Some callee_summary →
  has_effect e callee_summary →
  ∀ env s s', analyze_instruction_effects b env insn s = Ok s' →
              has_effect e s'.
Proof.
  intros Hop Hcallee He env s s'. unfold analyze_instruction_effects.
  destruct (opcode (target insn)); simpl in Hop; try discriminate;
    rewrite Hcallee;
    (apply (foldM_invariant (has_effect e));
     [|by apply land_lor_keep_r]);
    intros idx t t' _ Ht Hstep;
    apply bind_Ok_inv in Hstep as (r & _ & Hstep);
    by apply (classify_heap_write_included b env r t t' Hstep).
Qed.

(** C2.  A call whose callee summary is missing from the invoke-to-summary
    map, and every invoke-super and invoke-interface, adds unknown-invoke to
    the summary and changes nothing else; when the scan meets the
    instruction, the summary that [build] returns has unknown-invoke. *)
Theorem unresolved_call_sets_unknown_invoke (b : SummaryBuilder)
  (env : Environment) (insn : insn_ptr) (summary : Summary) :
  is_invoke (opcode (target insn)) = true →
  m_invoke_to_summary_cmap b !! addr insn = None ∨
  is_super_or_interface_invoke (opcode (target insn)) = true →
  analyze_instruction_effects b env insn summary
  = Ok (or_effects EFF_UNKNOWN_INVOKE summary) ∧
  has_effect EFF_UNKNOWN_INVOKE (or_effects EFF_UNKNOWN_INVOKE summary) ∧
  ∀ built, scanned b insn → build b = Ok built →
           has_effect EFF_UNKNOWN_INVOKE built.
Proof.
  intros Hinvoke Hcase.
  pose proof (analyze_unresolved_invoke b insn Hinvoke Hcase) as Hstep.
  split; [apply Hstep|]. split; [apply has_effect_or_effects|].
  intros built Hscan Hbuild.
  apply (build_scanned_effect b insn EFF_UNKNOWN_INVOKE built); [done| |done].
  intros env' s s'. rewrite Hstep. intros [= <-].
  apply has_effect_or_effects.
Qed.

Lemma unresolved_call_sets_unknown_invoke_witness :
  analyze_instruction_effects sample_builder sample_env sample_invoke_static
    Summary_default
  = Ok (or_effects EFF_UNKNOWN_INVOKE Summary_default) ∧
  has_effect EFF_UNKNOWN_INVOKE (or_effects EFF_UNKNOWN_INVOKE Summary_default) ∧
  ∀ built, scanned sample_builder sample_invoke_static →
           build sample_builder = Ok built →
           has_effect EFF_UNKNOWN_INVOKE built.
Proof.
  exact (unresolved_call_sets_unknown_invoke sample_builder sample_env
           sample_invoke_static Summary_default eq_refl (or_introl eq_refl)).
Defined.

Lemma src_Some (i : IRInstruction) (k : nat) (r : reg_t) :
  srcs i !! k = Some r → src i k = Ok r.
Proof. intros H. unfold src. by rewrite H. Qed.

Lemma classify_arguments_spec (b : SummaryBuilder) (env : Environment)
  (insn : insn_ptr) (idxs : list param_idx_t) (s : Summary) :
  (∀ idx, idx ∈ idxs →
     ∃ r, srcs (target insn) !! N.to_nat idx = Some r ∧
          params_known_through b env r) →
  ∃ s',
    foldM (λ s idx, r ← src (target insn) (N.to_nat idx);
                    classify_heap_write b env r s) idxs s = Ok s' ∧
    effects s' = (if existsb (argument_write_escapes env insn) idxs
                  then Z.lor (effects s) EFF_WRITE_MAY_ESCAPE else effects s) ∧
    ∀ p, p ∈ modified_params s' ↔
         p ∈ modified_params s ∨
         ∃ idx r, idx ∈ idxs ∧ srcs (target insn) !! N.to_nat idx = Some r ∧
                  write_reaches_param b env r p.
Proof.
  revert s. induction idxs as [|idx idxs IH]; intros s Hargs; cbn [foldM existsb].
  - exists s. split; [done|]. split; [done|]. intros p. split; [auto|].
    intros [H|(idx & r & Hin & _)]; [done|]. by apply elem_of_nil in Hin.
  - destruct (Hargs idx) as (r & Hsrc & Hknown); [by left|].
    destruct (classify_heap_write_spec b env r s Hknown)
      as (s1 & Hrun1 & Heff1 & Hmp1).
    destruct (IH s1) as (s2 & Hrun2 & Heff2 & Hmp2).
    { intros j Hj. apply Hargs. by right. }
    exists s2. rewrite (src_Some _ _ _ Hsrc); simpl. rewrite Hrun1; simpl.
    split; [done|]. split.
    + assert (argument_write_escapes env insn idx = write_escapes env r) as ->
        by (unfold argument_write_escapes; by rewrite Hsrc).
      rewrite Heff2, Heff1.
      destruct (write_escapes env r),
               (existsb (argument_write_escapes env insn) idxs);
        simpl; auto using lor_lor_same.
    + intros p. rewrite Hmp2, Hmp1. split.
      * intros [[H|H]|(j & r' & Hj & H)]; [by left| |].
        -- right. exists idx, r. split; [by left|done].
        -- right. exists j, r'. split; [by right|done].
      * intros [H|(j & r' & Hj & Hsrc' & H)]; [by left; left|].
        apply elem_of_cons in Hj as [->|Hj].
        -- left; right. congruence.
        -- right. by exists j, r'.
Qed.

(** C3.  An invoke-static, invoke-direct or invoke-virtual whose callee
    summary is in the invoke-to-summary map: the whole effects word of the
    callee is or-ed into the caller's summary, and for every index of the
    callee's modified_params the write through the source register of that
    index is classified in the caller's pointer environment: escaping-write
    is added when one of these writes escapes, and the caller's parameters
    that these writes reach are recorded. *)
Theorem resolved_call_imports_callee_summary (b : SummaryBuilder)
  (env : Environment) (insn : insn_ptr) (summary callee_summary : Summary) :
  is_resolved_invoke (opcode (target insn)) = true →
  m_invoke_to_summary_cmap b !! addr insn = Some callee_summary →
  (∀ idx, idx ∈ modified_params callee_summary →
     ∃ r, srcs (target insn) !! N.to_nat idx = Some r ∧
          params_known_through b env r) →
  ∃ summary',
    analyze_instruction_effects b env insn summary = Ok summary' ∧
    effects summary'
    = (let imported := Z.lor (effects summary) (effects callee_summary) in
       if existsb (argument_write_escapes env insn)
                  (elements (modified_params callee_summary))
       then Z.lor imported EFF_WRITE_MAY_ESCAPE else imported) ∧
    (∀ e, has_effect e callee_summary → has_effect e summary') ∧
    ∀ p, p ∈ modified_params summary' ↔
         p ∈ modified_params summary ∨
         ∃ idx r, idx ∈ modified_params callee_summary ∧
                  srcs (target insn) !! N.to_nat idx = Some r ∧
                  write_reaches_param b env r p.
Proof.
  intros Hop Hcallee Hargs.
  destruct (classify_arguments_spec b env insn
              (elements (modified_params callee_summary))
              (or_effects (effects callee_summary) summary))
    as (s' & Hrun & Heff & Hmp).
  { intros idx Hidx. apply Hargs. by apply elem_of_elements in Hidx. }
  exists s'. split; [|split; [done|split]].
  - unfold analyze_instruction_effects.
    destruct (opcode (target insn)); simpl in Hop; try discriminate;
      by rewrite Hcallee.
  - intros e He. unfold has_effect in *. rewrite Heff. simpl.
    destruct (existsb _ _);
      [apply land_lor_keep|]; by apply land_lor_keep_r.
  - intros p. rewrite Hmp. simpl.
    split; (intros [H|(idx & r & Hidx & H)]; [by left|right]);
      exists idx, r; split; try done; by apply elem_of_elements.
Qed.

Lemma resolved_call_imports_callee_summary_witness :
  ∃ summary',
    analyze_instruction_effects sample_builder_resolved sample_env
      sample_invoke_static Summary_default = Ok summary' ∧
    effects summary' = EFF_THROWS ∧
    (∀ e, has_effect e sample_callee_summary → has_effect e summary') ∧
    ∀ p, p ∈ modified_params summary' ↔
         p ∈ modified_params Summary_default ∨
         ∃ idx r, idx ∈ modified_params sample_callee_summary ∧
                  srcs (target sample_invoke_static) !! N.to_nat idx = Some r ∧
                  write_reaches_param sample_builder_resolved sample_env r p.
Proof.
  refine (resolved_call_imports_callee_summary sample_builder_resolved
            sample_env sample_invoke_static Summary_default
            sample_callee_summary eq_refl eq_refl _).
  intros idx Hidx. cbn [sample_callee_summary modified_params] in Hidx.
  apply elem_of_singleton in Hidx as ->.
  exists 0%N. split; [reflexivity|].
  intros elts [= <-] i Hi _ Hparam. elem_of_cases Hi; [by eexists|discriminate].
Defined.

(** ** Constant materialization *)

(** C7.  The instruction generator, on a value known for the destination of
    [original]: a signed-constant domain with the exact constant [c] gives one
    constant load of [c] into the destination of [original], wide exactly
    when that destination is wide; a known string gives the load of the
    string followed by the move of its result into that destination; a
    domain without exact constant (top, bottom, a range of more than one
    value, a string domain that is top or bottom, any other kind of domain)
    gives no instruction. *)
Theorem constant_materialization (wide : IROpcode → bool)
  (original : IRInstruction) :
  (∀ dom c, SignedConstantDomain_get_constant dom = Some c →
     ∃ insn,
       value_to_instruction_visitor wide original (CV_SignedConstant dom)
       = [insn] ∧
       dest insn = dest original ∧ literal insn = c ∧
       opcode insn = (if dest_is_wide wide original
                      then OPCODE_CONST_WIDE else OPCODE_CONST) ∧
       (opcode insn = OPCODE_CONST_WIDE ↔ dest_is_wide wide original = true)) ∧
  (∀ dom s, StringDomain_get_constant dom = Some s →
     ∃ load move,
       value_to_instruction_visitor wide original (CV_String dom)
       = [load; move] ∧
       opcode load = OPCODE_CONST_STRING ∧ string_payload load = Some s ∧
       opcode move = IOPCODE_MOVE_RESULT_PSEUDO_OBJECT ∧
       dest move = dest original) ∧
  (∀ dom, dom = SCD_Top ∨ dom = SCD_Bottom ∨
          (∃ lo hi, dom = SCD_Range lo hi ∧ lo ≠ hi) →
     SignedConstantDomain_get_constant dom = None ∧
     value_to_instruction_visitor wide original (CV_SignedConstant dom) = []) ∧
  (∀ dom, dom = SD_Top ∨ dom = SD_Bottom →
     value_to_instruction_visitor wide original (CV_String dom) = []) ∧
  (∀ kind, value_to_instruction_visitor wide original (CV_Other kind) = []).
Proof.
  assert (∀ dom, dom = SCD_Top ∨ dom = SCD_Bottom ∨
                 (∃ lo hi, dom = SCD_Range lo hi ∧ lo ≠ hi) →
          SignedConstantDomain_get_constant dom = None) as Hnone.
  { intros dom [->|[->|(lo & hi & -> & Hne)]]; simpl; try done.
    by destruct (Z.eqb_spec lo hi). }
  split; [|split; [|split; [|split]]].
  - intros dom c Hcst. unfold value_to_instruction_visitor. rewrite Hcst.
    eexists; split; [reflexivity|]. simpl.
    destruct (dest_is_wide wide original); repeat split; done.
  - intros dom s Hcst. unfold value_to_instruction_visitor. rewrite Hcst.
    by eexists _, _.
  - intros dom Hdom. split; [by apply Hnone|].
    unfold value_to_instruction_visitor. by rewrite (Hnone dom Hdom).
  - by intros dom [->| ->].
  - done.
Qed.

(** ** Required configuration parameters *)

(** C10.  [parse_required] fails with the assertion message that names the
    configurable and the parameter when the parser has no value for the
    name, and otherwise yields what the coercion of the value yields; bound
    with [bind_required] while a configuration is parsed, a missing parameter
    is fatal and never leaves the destination as it was, and a value that is
    present is assigned to the destination. *)
Theorem required_parameter_is_enforced (JsonValue T ParamType : Type)
  (as_T : JsonValue → bindflags_t → result T) (reflect_T : T → ParamType)
  (c : Configurable JsonValue) (name doc : string) (dest : T)
  (bindflags : bindflags_t) :
  (m_parser c name = None →
     parse_required as_T c name dest bindflags
     = Fatal (AssertionFailure
                ("Missing required parameter: " +:+ get_config_name c
                 +:+ "." +:+ name))) ∧
  (∀ value, m_parser c name = Some value →
     parse_required as_T c name dest bindflags = as_T value bindflags) ∧
  (m_reflecting c = false →
     (m_parser c name = None →
        bind_required as_T reflect_T c name dest doc bindflags
        = Fatal (AssertionFailure
                   ("Missing required parameter: " +:+ get_config_name c
                    +:+ "." +:+ name))) ∧
     (∀ value parsed, m_parser c name = Some value →
        as_T value bindflags = Ok parsed →
        bind_required as_T reflect_T c name dest doc bindflags
        = Ok (parsed, []))).
Proof.
  unfold bind_required, parse_required, missing_required_message.
  split; [|split].
  - by intros ->.
  - by intros value ->.
  - intros ->. split.
    + by intros ->.
    + intros value parsed -> Hparsed. simpl. by rewrite Hparsed.
Qed.

Example materialize_wide_constant :
  value_to_instruction_visitor sample_dest_is_wide sample_move_wide
    (CV_SignedConstant (SCD_Range 7 7))
  = [mkInsn OPCODE_CONST_WIDE [] 4%N 7 None].
Proof. reflexivity. Qed.

Example materialize_string :
  value_to_instruction_visitor sample_dest_is_wide sample_move
    (CV_String (SD_Value "hello"))
  = [mkInsn OPCODE_CONST_STRING [] 0%N 0 (Some "hello");
     mkInsn IOPCODE_MOVE_RESULT_PSEUDO_OBJECT [] 2%N 0 None].
Proof. reflexivity. Qed.

Example materialize_range :
  value_to_instruction_visitor sample_dest_is_wide sample_move
    (CV_SignedConstant (SCD_Range 0 10)) = [].
Proof. reflexivity. Qed.

Example missing_required_parameter :
  bind_required sample_as_int (λ _, tt) sample_configurable "min_depth" 0%Z
    "the least depth" 0%Z
  = Fatal (AssertionFailure "Missing required parameter: SamplePass.min_depth").
Proof. reflexivity. Qed.

Example present_required_parameter :
  bind_required sample_as_int (λ _, tt) sample_configurable "max_depth" 0%Z
    "the greatest depth" 0%Z
  = Ok (7%Z, []).
Proof. reflexivity. Qed.

(** ** The serialized form *)

Lemma digit_value_digit_char (d : Z) :
  (0 ≤ d < 10)%Z → digit_value (digit_char d) = Some d.
Proof.
  intros Hd.
  assert (d = 0 ∨ d = 1 ∨ d = 2 ∨ d = 3 ∨ d = 4 ∨ d = 5 ∨ d = 6 ∨ d = 7 ∨
          d = 8 ∨ d = 9)%Z as Hcases by lia.
  repeat (destruct Hcases as [->|Hcases]; [reflexivity|]).
  by subst.
Qed.

(** Reading back the digits written for [n] in front of [s] continues on [s]
    from the value [n]. *)
Lemma accumulate_digits_of (fuel : nat) (n : Z) (s : string) :
  (0 ≤ n < 2 ^ Z.of_nat fuel)%Z →
  accumulate_digits (digits_of fuel n s) 0 = accumulate_digits s n.
Proof.
  revert n s. induction fuel as [|fuel IH]; intros n s Hn.
  - simpl in *. by replace n with 0%Z by lia.
  - cbn [digits_of].
    assert (0 ≤ n mod 10 < 10)%Z as Hdigit by (apply Z.mod_pos_bound; lia).
    assert (n = 10 * (n / 10) + n mod 10)%Z as Hdiv by (apply Z.div_mod; lia).
    destruct (Z.eqb_spec (n / 10) 0%Z) as [Hzero|Hnonzero].
    + cbn [accumulate_digits]. rewrite digit_value_digit_char by done.
      f_equal. lia.
    + rewrite IH.
      * cbn [accumulate_digits]. rewrite digit_value_digit_char by done.
        f_equal. lia.
      * rewrite Nat2Z.inj_succ, Z.pow_succ_r in Hn by lia.
        split; [apply Z.div_pos; lia|].
        apply Z.div_lt_upper_bound; lia.
Qed.

Lemma digits_of_step (fuel : nat) (n : Z) (s : string) :
  digits_of (S fuel) n s
  = if (n / 10 =? 0)%Z then String (digit_char (n mod 10)) s
    else digits_of fuel (n / 10) (String (digit_char (n mod 10)) s).
Proof. reflexivity. Qed.

Lemma digits_of_starts_with_digit (fuel : nat) (n : Z) (s : string) :
  (0 ≤ n)%Z → starts_with_digit (digits_of (S fuel) n s) = true.
Proof.
  revert n s. induction fuel as [|fuel IH]; intros n s Hn.
  - cbn [digits_of]. destruct (n / 10 =? 0)%Z; cbn [digits_of starts_with_digit];
      rewrite digit_value_digit_char by (apply Z.mod_pos_bound; lia);
      by apply bool_decide_eq_true.
  - rewrite digits_of_step. destruct (n / 10 =? 0)%Z.
    + cbn [starts_with_digit].
      rewrite digit_value_digit_char by (apply Z.mod_pos_bound; lia).
      by apply bool_decide_eq_true.
    + apply IH. apply Z.div_pos; lia.
Qed.

(** On a string that begins with a digit, [stoi] skips nothing and reads no
    sign. *)
Lemma stoi_starts_with_digit (s : string) :
  starts_with_digit s = true →
  stoi s = (let v := accumulate_digits s 0 in
            if (INT_MIN <=? v)%Z && (v <=? INT_MAX)%Z then Ok v
            else Fatal (StdOutOfRange "stoi")).
Proof.
  destruct s as [|c s']; [discriminate|].
  intros Hdigit. cbn [starts_with_digit] in Hdigit.
  apply bool_decide_eq_true in Hdigit as [d Hd].
  destruct c as [[] [] [] [] [] [] [] []]; try discriminate Hd;
    unfold stoi; cbn [skip_spaces]; reflexivity.
Qed.

Lemma stoi_to_string (n : Z) :
  (0 ≤ n ≤ INT_MAX)%Z → stoi (to_string n) = Ok n.
Proof.
  intros Hn. unfold to_string.
  destruct (Z.ltb_spec n 0%Z) as [Hneg|_]; [lia|].
  unfold decimal.
  rewrite stoi_starts_with_digit by (apply digits_of_starts_with_digit; lia).
  cbv zeta. rewrite accumulate_digits_of.
  - cbn [accumulate_digits].
    destruct (Z.leb_spec INT_MIN n), (Z.leb_spec n INT_MAX);
      unfold INT_MIN in *; simpl; (done || lia).
  - split; [lia|]. rewrite Nat2Z.inj_succ, Z2Nat.id by apply Z.log2_nonneg.
    destruct (Z.eq_dec n 0%Z) as [->|Hpos]; [done|].
    apply Z.log2_spec. lia.
Qed.

Lemma s_index_middle (l1 l2 : list s_expr) (x : s_expr) :
  s_index (S_List (l1 ++ x :: l2)) (length l1) = Ok x.
Proof.
  unfold s_index. by rewrite lookup_app_r, Nat.sub_diag by done.
Qed.

(** The loop of [from_s_expr] over the indices of a list visits its elements
    in order. *)
Lemma foldM_indices {S : Type} (f : S → s_expr → result S)
  (done_ rest : list s_expr) (acc : S) :
  foldM (λ acc i, ei ← s_index (S_List (done_ ++ rest)) i; f acc ei)
        (seq (length done_) (length rest)) acc
  = foldM f rest acc.
Proof.
  revert done_ acc. induction rest as [|x rest IH]; intros done_ acc; [done|].
  cbn [length seq foldM]. cbn beta. rewrite s_index_middle. simpl.
  destruct (f acc x) as [acc'|e]; [|done]. simpl.
  specialize (IH (done_ ++ [x]) acc').
  rewrite <- app_assoc, length_app in IH. simpl in IH.
  by rewrite Nat.add_1_r in IH.
Qed.

Lemma to_param_idx_t_to_int32 (idx : N) :
  (idx < 2 ^ 16)%N → to_param_idx_t (to_int32 (Z.of_N idx)) = idx.
Proof.
  intros Hidx. unfold to_param_idx_t, to_int32.
  assert (0 ≤ Z.of_N idx < 2 ^ 16)%Z as Hz by lia.
  rewrite (Z.mod_small (_ + _)) by lia.
  rewrite Z.mod_small by lia. lia.
Qed.

Lemma read_params_written (idxs : list param_idx_t) (acc : gset param_idx_t) :
  Forall (λ idx, (idx < 2 ^ 16)%N) idxs →
  foldM (λ (acc : gset param_idx_t) e,
           x ← get_int32 e; Ok ({[to_param_idx_t x]} ∪ acc))
        (map (λ idx : param_idx_t, S_Int32 (to_int32 (Z.of_N idx))) idxs) acc
  = Ok (list_to_set idxs ∪ acc).
Proof.
  revert acc. induction idxs as [|idx idxs IH]; intros acc Hrange; simpl.
  - f_equal. set_solver.
  - inversion Hrange as [|? ? Hidx Hrest]; subst.
    rewrite to_param_idx_t_to_int32 by done. rewrite IH by done.
    f_equal. set_solver.
Qed.

(** The effects word of a summary is one that [std::stoi] reads back: every
    combination of the five flags is. *)
Lemma flags_fit_int (e : Z) :
  Z.land e (Z.lor EFF_THROWS (Z.lor EFF_LOCKS (Z.lor EFF_WRITE_MAY_ESCAPE
              (Z.lor EFF_UNKNOWN_INVOKE EFF_NO_OPTIMIZE)))) = e →
  (0 ≤ e ≤ INT_MAX)%Z.
Proof.
  intros He. change (Z.lor _ _) with (Z.ones 5) in He.
  rewrite Z.land_ones in He by lia. unfold INT_MAX.
  pose proof (Z.mod_pos_bound e (2 ^ 5)) as Hbound. lia.
Qed.

Lemma foldM_all_indices {S : Type} (f : S → s_expr → result S)
  (l : list s_expr) (acc : S) :
  foldM (λ acc i, ei ← s_index (S_List l) i; f acc ei) (seq 0 (length l)) acc
  = foldM f l acc.
Proof. apply (foldM_indices f [] l acc). Qed.

Lemma is_symbol_char_digit_char (d : Z) :
  (0 ≤ d < 10)%Z → is_symbol_char (digit_char d) = true.
Proof.
  intros Hd.
  assert (d = 0 ∨ d = 1 ∨ d = 2 ∨ d = 3 ∨ d = 4 ∨ d = 5 ∨ d = 6 ∨ d = 7 ∨
          d = 8 ∨ d = 9)%Z as Hcases by lia.
  repeat (destruct Hcases as [->|Hcases]; [reflexivity|]).
  by subst.
Qed.

Lemma all_symbol_chars_digits_of (fuel : nat) (n : Z) (s : string) :
  (0 ≤ n)%Z → all_symbol_chars s = true →
  all_symbol_chars (digits_of fuel n s) = true.
Proof.
  revert n s. induction fuel as [|fuel IH]; intros n s Hn Hs; [done|].
  assert (all_symbol_chars (String (digit_char (n mod 10)) s) = true) as Hs'.
  { cbn [all_symbol_chars].
    rewrite is_symbol_char_digit_char by (apply Z.mod_pos_bound; lia). done. }
  rewrite digits_of_step. destruct (n / 10 =? 0)%Z; [done|].
  apply IH; [apply Z.div_pos; lia|done].
Qed.

(** The decimal text of a number that is not negative is printed as it
    is. *)
Lemma print_string_atom_to_string (n : Z) :
  (0 ≤ n)%Z → print_string_atom (to_string n) = to_string n.
Proof.
  intros Hn. unfold to_string.
  destruct (Z.ltb_spec n 0%Z) as [Hneg|_]; [lia|]. unfold decimal.
  pose proof (digits_of_starts_with_digit (Z.to_nat (Z.log2 n)) n EmptyString
                Hn) as Hfirst.
  pose proof (all_symbol_chars_digits_of (S (Z.to_nat (Z.log2 n))) n
                EmptyString Hn eq_refl) as Hall.
  destruct (digits_of _ n EmptyString) as [|c rest]; [done|].
  unfold print_string_atom. by rewrite Hall.
Qed.

(** [from_s_expr] on a list of a string atom and a list. *)
Lemma from_s_expr_well_shaped (text : string) (l : list s_expr) :
  from_s_expr (S_List [S_String text; S_List l])
  = (v ← stoi (print_string_atom text);
     params ← foldM (λ (acc : gset param_idx_t) e,
                       x ← get_int32 e; Ok ({[to_param_idx_t x]} ∪ acc)) l ∅;
     Ok {| effects := to_effects_t v; modified_params := params |}).
Proof.
  rewrite <- (foldM_all_indices
                (λ (acc : gset param_idx_t) e,
                   x ← get_int32 e; Ok ({[to_param_idx_t x]} ∪ acc)) l ∅).
  reflexivity.
Qed.

(** C5.  Parsing the serialized form of a summary gives the summary back,
    for every effects word that fits an [int] (every combination of the five
    flags does, see [flags_fit_int]) and every set of parameter indices. *)
Theorem from_s_expr_to_s_expr (summary : Summary) :
  (0 ≤ effects summary ≤ INT_MAX)%Z →
  set_Forall (λ idx, (idx < 2 ^ 16)%N) (modified_params summary) →
  from_s_expr (to_s_expr summary) = Ok summary.
Proof.
  intros Heff Hparams. destruct summary as [e mp]. simpl in Heff, Hparams.
  unfold to_s_expr. cbn [effects modified_params].
  rewrite from_s_expr_well_shaped, print_string_atom_to_string by lia.
  rewrite stoi_to_string by done.
  cbn [mbind result_bind].
  rewrite read_params_written.
  - cbn [mbind result_bind]. f_equal. f_equal.
    + unfold to_effects_t. apply Z.mod_small. unfold INT_MAX in Heff. lia.
    + rewrite list_to_set_elements_L. set_solver.
  - apply Forall_forall. intros idx Hidx. apply Hparams.
    by apply elem_of_elements.
Qed.

Lemma from_s_expr_to_s_expr_witness :
  from_s_expr
    (to_s_expr {| effects := Z.lor EFF_THROWS EFF_NO_OPTIMIZE;
                  modified_params := {[0%N; 3%N; 65535%N]} |})
  = Ok {| effects := Z.lor EFF_THROWS EFF_NO_OPTIMIZE;
          modified_params := {[0%N; 3%N; 65535%N]} |}.
Proof.
  apply from_s_expr_to_s_expr.
  - split; by vm_compute.
  - intros idx Hidx. simpl in Hidx.
    apply elem_of_union in Hidx as [Hidx|Hidx];
      [apply elem_of_union in Hidx as [Hidx|Hidx]|];
      apply elem_of_singleton in Hidx as ->; reflexivity.
Defined.

(** The limit of the round trip: an effects word above [INT_MAX], which no
    combination of the five flags reaches, is written in full and not read
    back. *)
Lemma from_s_expr_to_s_expr_above_int :
  from_s_expr (to_s_expr {| effects := 2 ^ 31; modified_params := ∅ |})
  = Fatal (StdOutOfRange "stoi").
Proof. reflexivity. Qed.

(** C6.  The characters that follow the leading digits of the effects field
    are not looked at: a first element that is not a decimal integer is read
    as the integer it begins with, and a summary is returned. *)
Theorem from_s_expr_accepts_trailing_characters :
  from_s_expr (S_List [S_String "12abc"; S_List []])
  = Ok {| effects := 12; modified_params := ∅ |}.
Proof. reflexivity. Qed.

(** What [from_s_expr] does reject: an input that is not a list of two
    elements, a first element that is not a string atom or whose printed form
    does not begin with an integer, a second element that is not a list of
    int32 atoms. *)
Lemma from_s_expr_rejects (expr : s_expr) :
  (∀ l, expr = S_List l → length l ≠ 2%nat) ∨
  (∃ e0 e1, expr = S_List [e0; e1] ∧
     (is_string e0 = false ∨
      (∃ text e, e0 = S_String text ∧
                 stoi (print_string_atom text) = Fatal e) ∨
      is_list e1 = false ∨
      ∃ l x, e1 = S_List l ∧ x ∈ l ∧ (∀ n, x ≠ S_Int32 n))) →
  ∃ e, from_s_expr expr = Fatal e.
Proof.
  intros [Harity|(e0 & e1 & -> & Hbad)].
  - destruct expr as [n|s|l]; [by eexists..|].
    unfold from_s_expr. cbn [s_size mbind result_bind].
    specialize (Harity l eq_refl).
    destruct (Nat.eqb_spec (length l) 2) as [Hlen|_]; [done|by eexists].
  - destruct e0 as [n|text|l0]; [by eexists| |by eexists].
    destruct e1 as [n|s|l].
    { unfold from_s_expr. cbn. destruct (stoi _); by eexists. }
    { unfold from_s_expr. cbn. destruct (stoi _); by eexists. }
    rewrite from_s_expr_well_shaped.
    destruct Hbad as [Hstr|[(text' & e & [= <-] & Hstoi)|Hrest]].
    + discriminate.
    + rewrite Hstoi. by eexists.
    + destruct (stoi _) as [v|e]; [|by eexists]. cbn [mbind result_bind].
      destruct Hrest as [Hlist|(l' & x & [= <-] & Hx & Hnot)].
      * discriminate.
      * destruct (foldM _ l ∅) as [params|e] eqn:Hloop; [|by eexists].
        exfalso.
        apply list_elem_of_split in Hx as (l1 & l2 & ->).
        rewrite foldM_app in Hloop.
        apply bind_Ok_inv in Hloop as (acc & _ & Hloop).
        cbn [foldM] in Hloop.
        destruct x as [n|s|lx]; [by eapply Hnot|done..].
Qed.

(** An atom with a character that is no symbol character is printed between
    quotes, and [std::stoi] finds no digit at the quote. *)
Example from_s_expr_quoted_atom :
  from_s_expr (S_List [S_String "12 abc"; S_List []])
  = Fatal (StdInvalidArgument "stoi").
Proof. reflexivity. Qed.

Example stoi_sign_and_spaces : stoi "  -42;" = Ok (-42)%Z.
Proof. reflexivity. Qed.

Example stoi_no_digit : stoi "abc" = Fatal (StdInvalidArgument "stoi").
Proof. reflexivity. Qed.

Example stoi_too_large : stoi "2147483648" = Fatal (StdOutOfRange "stoi").
Proof. reflexivity. Qed.

Example to_s_expr_sample :
  to_s_expr {| effects := Z.lor EFF_LOCKS EFF_UNKNOWN_INVOKE;
               modified_params := {[2%N]} |}
  = S_List [S_String "10"; S_List [S_Int32 2]].
Proof. reflexivity. Qed.

(** ** The recursive driver *)

Lemma analyze_method_recursive_step (fuel : nat) (method : DexMethod)
  (call_graph : gmap positive (list Edge))
  (ptrs_fp_iter_map : gmap positive FixpointIterator)
  (visiting : gset positive) (summary_cmap : gmap positive Summary) :
  analyze_method_recursive (S fuel) method call_graph ptrs_fp_iter_map
    visiting summary_cmap
  = match get_code method with
    | None => Some (Ok summary_cmap)
    | Some code =>
        if bool_decide (is_Some (summary_cmap !! method_addr method))
           || bool_decide (method_addr method ∈ visiting)
        then Some (Ok summary_cmap)
        else
          match analyze_callees
                  (λ callee cmap,
                     analyze_method_recursive fuel callee call_graph
                       ptrs_fp_iter_map ({[method_addr method]} ∪ visiting)
                       cmap)
                  (default [] (call_graph !! method_addr method))
                  summary_cmap ∅ with
          | None => None
          | Some (Fatal e) => Some (Fatal e)
          | Some (Ok (summary_cmap', invoke_to_summary_cmap)) =>
              Some (summarize_and_publish method code ptrs_fp_iter_map
                      summary_cmap' invoke_to_summary_cmap)
          end
    end.
Proof. reflexivity. Qed.

Lemma callee_in_callee_addrs (call_graph : gmap positive (list Edge))
  (k : positive) (edges : list Edge) (edge : Edge) :
  call_graph !! k = Some edges → edge ∈ edges →
  method_addr (callee edge) ∈ callee_addrs call_graph.
Proof.
  intros Hnode Hedge. unfold callee_addrs. apply elem_of_union_list.
  exists (list_to_set (map (λ e, method_addr (callee e)) edges)). split.
  - apply list_elem_of_fmap. exists (k, edges). split; [done|].
    by apply elem_of_map_to_list.
  - apply elem_of_list_to_set, list_elem_of_fmap. by exists edge.
Qed.

Section Driver.
Context (call_graph : gmap positive (list Edge)).
Context (ptrs_fp_iter_map : gmap positive FixpointIterator).

Local Abbreviation analyze fuel method visiting cmap :=
  (analyze_method_recursive fuel method call_graph ptrs_fp_iter_map
     visiting cmap).

(** The loop over the edges ends when every recursive call does. *)
Lemma analyze_callees_terminates
  (recurse : DexMethod → gmap positive Summary → run (gmap positive Summary))
  (edges : list Edge) (cmap inv : gmap positive Summary) :
  (∀ edge c, edge ∈ edges → is_Some (recurse (callee edge) c)) →
  is_Some (analyze_callees recurse edges cmap inv).
Proof.
  revert cmap inv. induction edges as [|edge edges IH]; intros cmap inv Hrec.
  - by eexists.
  - cbn [analyze_callees].
    destruct (Hrec edge cmap) as [[cmap'|e] ->]; [by left| |by eexists].
    apply IH. intros edge' c Hin. apply Hrec. by right.
Qed.

(** The methods not yet on the recursion path bound the depth. *)
Lemma analyze_callee_terminates (fuel : nat) (method : DexMethod)
  (visiting : gset positive) (cmap : gmap positive Summary) :
  method_addr method ∈ callee_addrs call_graph →
  size (callee_addrs call_graph ∖ visiting) < fuel →
  is_Some (analyze fuel method visiting cmap).
Proof.
  revert method visiting cmap.
  induction fuel as [|fuel IH]; intros method visiting cmap Hin Hsize; [lia|].
  rewrite analyze_method_recursive_step.
  destruct (get_code method) as [code|]; [|by eexists].
  destruct (bool_decide (is_Some (cmap !! method_addr method))); simpl;
    [by eexists|].
  destruct (bool_decide_reflect (method_addr method ∈ visiting))
    as [|Hfresh]; [by eexists|].
  destruct (analyze_callees_terminates
              (λ callee c, analyze fuel callee
                             ({[method_addr method]} ∪ visiting) c)
              (default [] (call_graph !! method_addr method)) cmap ∅)
    as [[[cmap' inv]|e] ->]; [|by eexists..].
  intros edge c Hedge. apply IH.
  - destruct (call_graph !! method_addr method) as [edges|] eqn:Hnode;
      [|by apply elem_of_nil in Hedge].
    exact (callee_in_callee_addrs _ _ edges edge Hnode Hedge).
  - assert (callee_addrs call_graph ∖ ({[method_addr method]} ∪ visiting)
            ⊂ callee_addrs call_graph ∖ visiting) as Hless by set_solver.
    apply subset_size in Hless. lia.
Qed.

Lemma analyze_method_recursive_terminates (fuel : nat) (method : DexMethod)
  (visiting : gset positive) (cmap : gmap positive Summary) :
  S (size (callee_addrs call_graph ∖ visiting)) < fuel →
  is_Some (analyze fuel method visiting cmap).
Proof.
  destruct fuel as [|fuel]; [lia|]. intros Hsize.
  rewrite analyze_method_recursive_step.
  destruct (get_code method) as [code|]; [|by eexists].
  destruct (_ || _); [by eexists|].
  destruct (analyze_callees_terminates
              (λ callee c, analyze fuel callee
                             ({[method_addr method]} ∪ visiting) c)
              (default [] (call_graph !! method_addr method)) cmap ∅)
    as [[[cmap' inv]|e] ->]; [|by eexists..].
  intros edge c Hedge. apply analyze_callee_terminates.
  - destruct (call_graph !! method_addr method) as [edges|] eqn:Hnode;
      [|by apply elem_of_nil in Hedge].
    exact (callee_in_callee_addrs _ _ edges edge Hnode Hedge).
  - assert (callee_addrs call_graph ∖ ({[method_addr method]} ∪ visiting)
            ⊆ callee_addrs call_graph ∖ visiting) as Hless by set_solver.
    apply subseteq_size in Hless. lia.
Qed.

(** More fuel does not change an outcome. *)
Lemma analyze_callees_mono
  (rec1 rec2 : DexMethod → gmap positive Summary → run (gmap positive Summary))
  (edges : list Edge) (cmap inv : gmap positive Summary)
  (r : result (gmap positive Summary * gmap positive Summary)) :
  (∀ m c r', rec1 m c = Some r' → rec2 m c = Some r') →
  analyze_callees rec1 edges cmap inv = Some r →
  analyze_callees rec2 edges cmap inv = Some r.
Proof.
  intros Hmono. revert cmap inv.
  induction edges as [|edge edges IH]; intros cmap inv; [done|].
  cbn [analyze_callees].
  destruct (rec1 (callee edge) cmap) as [r1|] eqn:Hrec; [|done].
  rewrite (Hmono _ _ _ Hrec). destruct r1; [apply IH|done].
Qed.

Lemma analyze_method_recursive_mono (fuel : nat) (method : DexMethod)
  (visiting : gset positive) (cmap : gmap positive Summary)
  (r : result (gmap positive Summary)) :
  analyze fuel method visiting cmap = Some r →
  analyze (S fuel) method visiting cmap = Some r.
Proof.
  revert method visiting cmap r.
  induction fuel as [|fuel IH]; intros method visiting cmap r; [done|].
  rewrite (analyze_method_recursive_step (S fuel)).
  rewrite (analyze_method_recursive_step fuel).
  destruct (get_code method) as [code|]; [|done].
  destruct (_ || _); [done|].
  destruct (analyze_callees _ _ cmap ∅) as [r1|] eqn:Hloop; [|done].
  apply (analyze_callees_mono _
           (λ callee c, analyze (S fuel) callee
                          ({[method_addr method]} ∪ visiting) c)) in Hloop.
  - by rewrite Hloop.
  - intros m c r'. apply IH.
Qed.

Lemma analyze_method_recursive_mono_le (fuel fuel' : nat)
  (method : DexMethod) (visiting : gset positive)
  (cmap : gmap positive Summary) (r : result (gmap positive Summary)) :
  fuel ≤ fuel' →
  analyze fuel method visiting cmap = Some r →
  analyze fuel' method visiting cmap = Some r.
Proof.
  induction 1 as [|fuel' _ IH]; [done|].
  intros Hrun. by apply analyze_method_recursive_mono, IH.
Qed.

(** A property of the shared map that every recursive call keeps is kept
    by the loop over the edges. *)
Lemma analyze_callees_invariant (P : gmap positive Summary → Prop)
  (recurse : DexMethod → gmap positive Summary → run (gmap positive Summary))
  (edges : list Edge) (cmap inv cmap' inv' : gmap positive Summary) :
  (∀ m c c', P c → recurse m c = Some (Ok c') → P c') →
  P cmap →
  analyze_callees recurse edges cmap inv = Some (Ok (cmap', inv')) →
  P cmap'.
Proof.
  intros Hkeep. revert cmap inv.
  induction edges as [|edge edges IH]; intros cmap inv Hcmap Hrun.
  - by injection Hrun as <- <-.
  - cbn [analyze_callees] in Hrun.
    destruct (recurse (callee edge) cmap) as [[c1|e]|] eqn:Hrec; [|done..].
    eapply IH; [|done]. by eapply Hkeep.
Qed.

(** No summary is published for a method on the recursion path. *)
Lemma analyze_keeps_visiting_unpublished (fuel : nat) (method : DexMethod)
  (visiting : gset positive) (cmap cmap' : gmap positive Summary)
  (k : positive) :
  analyze fuel method visiting cmap = Some (Ok cmap') →
  k ∈ visiting → cmap !! k = None → cmap' !! k = None.
Proof.
  revert method visiting cmap cmap'.
  induction fuel as [|fuel IH]; intros method visiting cmap cmap';
    [done|].
  rewrite analyze_method_recursive_step.
  destruct (get_code method) as [code|]; [|by intros [= <-]].
  destruct (bool_decide (is_Some (cmap !! method_addr method))); simpl;
    [by intros [= <-]|].
  destruct (bool_decide_reflect (method_addr method ∈ visiting))
    as [|Hfresh]; [by intros [= <-]|].
  destruct (analyze_callees _ _ cmap ∅) as [[[cmap1 inv]|e]|] eqn:Hloop;
    [|done..].
  intros Hpub Hk Hnone.
  apply (analyze_callees_invariant (λ c, c !! k = None)) in Hloop;
    [|intros m c c' Hc Hrec; apply (IH _ _ _ _ Hrec); [set_solver|done]
     |done].
  injection Hpub as Hpub. unfold summarize_and_publish in Hpub.
  destruct (ptrs_fp_iter_map !! method_addr method); [|done].
  apply bind_Ok_inv in Hpub as (scan & _ & [= <-]).
  unfold emplace. destruct (cmap1 !! method_addr method); [done|].
  rewrite lookup_insert_ne; [done|]. intros Heq. apply Hfresh.
  by rewrite Heq.
Qed.
End Driver.

(** What the driver publishes for a method from the outcome of its scan. *)
Lemma summarize_and_publish_fresh (method : DexMethod) (code : IRCode)
  (ptrs_fp_iter_map : gmap positive FixpointIterator)
  (ptrs_fp_iter : FixpointIterator)
  (cmap inv : gmap positive Summary) (scan : Summary) :
  ptrs_fp_iter_map !! method_addr method = Some ptrs_fp_iter →
  build (SummaryBuilder_new inv ptrs_fp_iter code) = Ok scan →
  cmap !! method_addr method = None →
  summarize_and_publish method code ptrs_fp_iter_map cmap inv
  = Ok (<[method_addr method :=
            if no_optimizations method
            then or_effects EFF_NO_OPTIMIZE scan else scan]> cmap).
Proof.
  intros Hfp Hbuild Hfresh. unfold summarize_and_publish, emplace.
  rewrite Hfp, Hbuild. simpl. by rewrite Hfresh.
Qed.

(** C8.  When the driver analyzes a method marked do-not-optimize, the
    summary it publishes for the method is the summary returned by the
    instruction scan with no-optimize or-ed in afterwards: no-optimize is
    set whatever the scan computed, every effect of the scan is kept, and so
    are its modified parameters. *)
Theorem no_optimize_is_set_after_the_scan (fuel : nat) (method : DexMethod)
  (call_graph : gmap positive (list Edge))
  (ptrs_fp_iter_map : gmap positive FixpointIterator)
  (visiting : gset positive) (cmap cmap' : gmap positive Summary) :
  no_optimizations method = true →
  cmap !! method_addr method = None →
  method_addr method ∉ visiting →
  is_Some (get_code method) →
  analyze_method_recursive fuel method call_graph ptrs_fp_iter_map visiting
    cmap = Some (Ok cmap') →
  ∃ code ptrs_fp_iter invoke_to_summary_cmap scan,
    get_code method = Some code ∧
    ptrs_fp_iter_map !! method_addr method = Some ptrs_fp_iter ∧
    build (SummaryBuilder_new invoke_to_summary_cmap ptrs_fp_iter code)
    = Ok scan ∧
    cmap' !! method_addr method = Some (or_effects EFF_NO_OPTIMIZE scan) ∧
    has_effect EFF_NO_OPTIMIZE (or_effects EFF_NO_OPTIMIZE scan) ∧
    effects_included scan (or_effects EFF_NO_OPTIMIZE scan) ∧
    modified_params (or_effects EFF_NO_OPTIMIZE scan) = modified_params scan.
Proof.
  intros Hmarked Hfresh Hpath [code Hcode] Hrun.
  destruct fuel as [|fuel]; [done|].
  rewrite analyze_method_recursive_step, Hcode in Hrun.
  rewrite bool_decide_false in Hrun by (rewrite Hfresh; by intros [? ?]).
  rewrite bool_decide_false in Hrun by done. simpl in Hrun.
  destruct (analyze_callees _ _ cmap ∅) as [[[cmap1 inv]|e]|] eqn:Hloop;
    [|done..].
  injection Hrun as Hpub.
  assert (cmap1 !! method_addr method = None) as Hfresh1.
  { apply (analyze_callees_invariant (λ c, c !! method_addr method = None))
      in Hloop; [done| |done].
    intros m c c' Hc Hrec.
    apply (analyze_keeps_visiting_unpublished _ _ _ _ _ _ _ _ Hrec);
      [set_solver|done]. }
  unfold summarize_and_publish in Hpub.
  destruct (ptrs_fp_iter_map !! method_addr method) as [fp|] eqn:Hfp; [|done].
  destruct (build (SummaryBuilder_new inv fp code)) as [scan|e] eqn:Hbuild;
    [|done].
  simpl in Hpub. rewrite Hmarked in Hpub. injection Hpub as <-.
  exists code, fp, inv, scan. repeat split; try done.
  - unfold emplace. rewrite Hfresh1. apply lookup_insert_eq.
  - apply has_effect_or_effects.
  - apply effects_included_or_effects.
Qed.

Lemma no_optimize_is_set_after_the_scan_witness :
  ∃ cmap',
    analyze_method_recursive 1 sample_method_no_optimize ∅ sample_fp_iter_map
      ∅ ∅ = Some (Ok cmap') ∧
    ∃ code ptrs_fp_iter invoke_to_summary_cmap scan,
      get_code sample_method_no_optimize = Some code ∧
      sample_fp_iter_map !! method_addr sample_method_no_optimize
      = Some ptrs_fp_iter ∧
      build (SummaryBuilder_new invoke_to_summary_cmap ptrs_fp_iter code)
      = Ok scan ∧
      cmap' !! method_addr sample_method_no_optimize
      = Some (or_effects EFF_NO_OPTIMIZE scan) ∧
      has_effect EFF_NO_OPTIMIZE (or_effects EFF_NO_OPTIMIZE scan) ∧
      effects_included scan (or_effects EFF_NO_OPTIMIZE scan) ∧
      modified_params (or_effects EFF_NO_OPTIMIZE scan) = modified_params scan.
Proof.
  eexists. split; [vm_compute; reflexivity|].
  apply (no_optimize_is_set_after_the_scan 1 sample_method_no_optimize ∅
           sample_fp_iter_map ∅ ∅).
  - reflexivity.
  - reflexivity.
  - apply not_elem_of_empty.
  - by eexists.
  - vm_compute; reflexivity.
Defined.

(** The summary the driver publishes from the outcome of a scan. *)
Lemma published_has_scan_effects (method : DexMethod) (scan : Summary) (e : Z) :
  has_effect e scan →
  has_effect e (if no_optimizations method
                then or_effects EFF_NO_OPTIMIZE scan else scan).
Proof.
  intros He. destruct (no_optimizations method); [|done].
  by apply effects_included_or_effects.
Qed.

(** * Further properties *)

(** ** Transform statistics *)

(** X1.  Adding statistics is commutative and associative, also when a
    [size_t] counter wraps, and the default statistics are neutral for
    counters that are [size_t] values. *)
Theorem Stats_add_monoid (a b c : Stats) :
  Stats_add a b = Stats_add b a ∧
  Stats_add (Stats_add a b) c = Stats_add a (Stats_add b c) ∧
  Stats_in_range (Stats_add a b) ∧
  (Stats_in_range a →
   Stats_add Stats_default a = a ∧ Stats_add a Stats_default = a).
Proof.
  unfold Stats_add, Stats_in_range, to_size_t. simpl.
  split; [|split; [|split]].
  - f_equal; f_equal; lia.
  - f_equal.
    + rewrite Zplus_mod_idemp_l, Zplus_mod_idemp_r. f_equal; lia.
    + rewrite Zplus_mod_idemp_l, Zplus_mod_idemp_r. f_equal; lia.
  - split; apply Z.mod_pos_bound; lia.
  - intros [Hb Hm]. destruct a as [br mc]; simpl in *.
    rewrite !Z.add_0_r, !Z.mod_small by lia. done.
Qed.

Lemma Stats_add_monoid_witness :
  Stats_add Stats_default (mkStats 3 (2 ^ 64 - 1)) = mkStats 3 (2 ^ 64 - 1) ∧
  Stats_add (mkStats 3 (2 ^ 64 - 1)) Stats_default = mkStats 3 (2 ^ 64 - 1).
Proof.
  apply (Stats_add_monoid (mkStats 3 (2 ^ 64 - 1)) Stats_default Stats_default).
  split; split; by vm_compute.
Defined.

Example Stats_add_wraps :
  Stats_add (mkStats 1 (2 ^ 64 - 1)) (mkStats 2 1) = mkStats 3 0.
Proof. reflexivity. Qed.

(** ** Configuration bindings *)

(** X2.  While a configuration is parsed, a parameter bound with a default
    is never an error when it is missing: the destination takes the default.
    When a value is there, [bind] and [bind_required] do the same. *)
Theorem bind_defaults_when_missing (JsonValue T ParamType : Type)
  (as_T : JsonValue → bindflags_t → result T) (reflect_T : T → ParamType)
  (c : Configurable JsonValue) (name doc : string) (defaultValue dest : T)
  (bindflags : bindflags_t) :
  m_reflecting c = false →
  (m_parser c name = None →
   bind as_T reflect_T c name defaultValue dest doc bindflags
   = Ok (defaultValue, [])) ∧
  (is_Some (m_parser c name) →
   bind as_T reflect_T c name defaultValue dest doc bindflags
   = bind_required as_T reflect_T c name dest doc bindflags).
Proof.
  intros Hparse. unfold bind, bind_required, parse, parse_required.
  rewrite Hparse. split.
  - by intros ->.
  - by intros [value ->].
Qed.

Lemma bind_defaults_when_missing_witness :
  bind sample_as_int (λ _, tt) sample_configurable "min_depth" 3%Z 0%Z
    "the least depth" 0%Z = Ok (3%Z, []).
Proof.
  exact (proj1 (bind_defaults_when_missing Z Z unit sample_as_int (λ _, tt)
                  sample_configurable "min_depth" "the least depth" 3%Z 0%Z
                  0%Z eq_refl) eq_refl).
Defined.

(** X3.  While the bindings are reflected the configuration is not read: a
    required parameter without value is no error, the destination keeps its
    value, and one parameter is reported, marked required by [bind_required]
    and not required by [bind]. *)
Theorem reflection_reads_no_configuration (JsonValue T ParamType : Type)
  (as_T : JsonValue → bindflags_t → result T) (reflect_T : T → ParamType)
  (c : Configurable JsonValue) (name doc : string) (defaultValue dest : T)
  (bindflags : bindflags_t) :
  m_reflecting c = true →
  ∃ reported_required reported,
    bind_required as_T reflect_T c name dest doc bindflags
    = Ok (dest, [reported_required]) ∧
    bind as_T reflect_T c name defaultValue dest doc bindflags
    = Ok (dest, [reported]) ∧
    param_is_required reported_required = true ∧
    param_is_required reported = false ∧
    param_name reported_required = name ∧ param_name reported = name ∧
    param_type reported_required = reflect_T dest ∧
    param_type reported = reflect_T dest.
Proof.
  intros Hreflect. unfold bind, bind_required. rewrite Hreflect.
  by eexists _, _.
Qed.

Lemma reflection_reads_no_configuration_witness :
  ∃ reported_required reported,
    bind_required sample_as_int (λ _, tt) sample_reflecting "min_depth" 5%Z
      "the least depth" 0%Z = Ok (5%Z, [reported_required]) ∧
    bind sample_as_int (λ _, tt) sample_reflecting "min_depth" 3%Z 5%Z
      "the least depth" 0%Z = Ok (5%Z, [reported]) ∧
    param_is_required reported_required = true ∧
    param_is_required reported = false ∧
    param_name reported_required = "min_depth" ∧
    param_name reported = "min_depth" ∧
    param_type reported_required = tt ∧ param_type reported = tt.
Proof.
  exact (reflection_reads_no_configuration Z Z unit sample_as_int (λ _, tt)
           sample_reflecting "min_depth" "the least depth" 3%Z 5%Z 0%Z
           eq_refl).
Defined.

(** X4.  [after_configuration] may be called once: after a call with a
    function that holds a target every further call fails on the assertion.
    The guard tests the stored function, so a call with an empty function
    does not count. *)
Theorem after_configuration_once (Callback : Type)
  (m_after_configuration : option Callback) (fn : Callback)
  (stored : option Callback) :
  after_configuration m_after_configuration (Some fn) = Ok stored →
  m_after_configuration = None ∧ stored = Some fn ∧
  (∀ again,
     after_configuration stored again
     = Fatal (AssertionFailure "after_configuration may only be called once")) ∧
  (∀ later, after_configuration (@None Callback) None ≫=
              (λ stored', after_configuration stored' later) = Ok later).
Proof.
  unfold after_configuration.
  destruct m_after_configuration as [old|]; simpl.
  - intros Hrun. discriminate Hrun.
  - intros [= <-]. repeat split; done.
Qed.

Lemma after_configuration_once_witness :
  after_configuration (Some 1%nat) (Some 2%nat)
  = Fatal (AssertionFailure "after_configuration may only be called once").
Proof.
  exact (proj1 (proj2 (proj2 (after_configuration_once nat None 1%nat
                                (Some 1%nat) eq_refl))) (Some 2%nat)).
Defined.

(** ** The parameter map of the builder *)

Lemma number_params_keeps (l : list insn_ptr) (idx : Z)
  (m : gmap positive param_idx_t) (k : positive) (v : param_idx_t) :
  m !! k = Some v → number_params l idx m !! k = Some v.
Proof.
  revert idx m. induction l as [|insn l IH]; intros idx m Hk; [done|].
  cbn [number_params]. apply IH.
  destruct (m !! addr insn) eqn:Hinsn; [done|].
  rewrite lookup_insert_ne; [done|]. intros Heq. congruence.
Qed.

Lemma number_params_lookup (l : list insn_ptr) (idx : Z)
  (m : gmap positive param_idx_t) (i : nat) (insn : insn_ptr) :
  NoDup (addr <$> l) → (∀ x, x ∈ l → m !! addr x = None) →
  l !! i = Some insn →
  number_params l idx m !! addr insn
  = Some (to_param_idx_t (idx + Z.of_nat i)).
Proof.
  revert idx m i. induction l as [|x l IH]; intros idx m i Hnodup Hfresh Hi;
    [done|].
  cbn [number_params]. rewrite fmap_cons in Hnodup.
  apply NoDup_cons in Hnodup as [Hx Hnodup].
  rewrite (Hfresh x) by by left.
  destruct i as [|i]; simpl in Hi.
  - injection Hi as ->. rewrite Z.add_0_r.
    apply number_params_keeps, lookup_insert_eq.
  - rewrite (IH (idx + 1)%Z _ i); [f_equal; f_equal; lia|done| |done].
    intros y Hy. rewrite lookup_insert_ne; [apply Hfresh; by right|].
    intros Heq. apply Hx. rewrite Heq. apply list_elem_of_fmap. by exists y.
Qed.

Lemma number_params_origin (l : list insn_ptr) (idx : Z)
  (m : gmap positive param_idx_t) (k : positive) (p : param_idx_t) :
  number_params l idx m !! k = Some p →
  m !! k = Some p ∨
  ∃ i insn, l !! i = Some insn ∧ addr insn = k ∧
            p = to_param_idx_t (idx + Z.of_nat i).
Proof.
  revert idx m. induction l as [|x l IH]; intros idx m Hk; [by left|].
  cbn [number_params] in Hk. apply IH in Hk as [Hk|(i & insn & Hi & Ha & Hp)].
  - destruct (m !! addr x) eqn:Hx; [by left|].
    destruct (decide (addr x = k)) as [Heq|Hne].
    + right. exists 0%nat, x. rewrite Heq, lookup_insert_eq in Hk.
      injection Hk as <-. by rewrite Z.add_0_r.
    + left. by rewrite lookup_insert_ne in Hk.
  - right. exists (S i), insn. split; [done|]. split; [done|].
    rewrite Hp. f_equal. lia.
Qed.

(** X5.  The builder numbers the load-param instructions of the code in
    their order, from 0: the instruction at position [i] is looked up as
    parameter [i], and nothing else is in the map; for instructions at
    distinct addresses and at most 65536 parameters. *)
Theorem param_insn_map_numbers_parameters
  (invoke_to_summary_cmap : gmap positive Summary)
  (ptrs_fp_iter : FixpointIterator) (code : IRCode) :
  NoDup (addr <$> get_param_instructions code) →
  (Z.of_nat (length (get_param_instructions code)) ≤ 2 ^ 16)%Z →
  let b := SummaryBuilder_new invoke_to_summary_cmap ptrs_fp_iter code in
  (∀ i insn, get_param_instructions code !! i = Some insn →
     m_param_insn_map b !! addr insn = Some (N.of_nat i)) ∧
  (∀ k p, m_param_insn_map b !! k = Some p →
     ∃ insn, get_param_instructions code !! N.to_nat p = Some insn ∧
             addr insn = k).
Proof.
  intros Hnodup Hlen b. subst b. cbn [SummaryBuilder_new m_param_insn_map].
  assert (∀ i, i < length (get_param_instructions code) →
               to_param_idx_t (0 + Z.of_nat i) = N.of_nat i) as Hidx.
  { intros i Hi. unfold to_param_idx_t. rewrite Z.add_0_l, Z.mod_small by lia.
    lia. }
  split.
  - intros i insn Hi.
    rewrite (number_params_lookup _ 0 ∅ i insn); [|done|done|done].
    f_equal. apply Hidx. by apply lookup_lt_Some in Hi.
  - intros k p Hk.
    apply number_params_origin in Hk as [Hk|(i & insn & Hi & Ha & ->)];
      [done|].
    exists insn. rewrite Hidx by by apply lookup_lt_Some in Hi.
    by rewrite Nat2N.id.
Qed.

Lemma param_insn_map_numbers_parameters_witness :
  (∀ i insn, get_param_instructions sample_code !! i = Some insn →
     m_param_insn_map sample_builder !! addr insn = Some (N.of_nat i)) ∧
  (∀ k p, m_param_insn_map sample_builder !! k = Some p →
     ∃ insn, get_param_instructions sample_code !! N.to_nat p = Some insn ∧
             addr insn = k).
Proof.
  apply (param_insn_map_numbers_parameters ∅ sample_fp_iter sample_code).
  - cbn. apply NoDup_cons.
    split; [by intros ?%list_elem_of_singleton|apply NoDup_singleton].
  - by vm_compute.
Defined.

(** ** Invariants of the scan *)

Section ScanInvariant.
Context (b : SummaryBuilder) (P : Summary → Prop).
Hypothesis P_scan : ∀ e s,
  e ∈ [EFF_THROWS; EFF_LOCKS; EFF_WRITE_MAY_ESCAPE; EFF_UNKNOWN_INVOKE] →
  P s → P (or_effects e s).
Hypothesis P_callee : ∀ k callee_summary s,
  m_invoke_to_summary_cmap b !! k = Some callee_summary →
  P s → P (or_effects (effects callee_summary) s).
Hypothesis P_param : ∀ k p s,
  m_param_insn_map b !! k = Some p → P s → P (emplace_param p s).

Lemma classify_heap_write_invariant (env : Environment) (r : reg_t)
  (s s' : Summary) :
  classify_heap_write b env r s = Ok s' → P s → P s'.
Proof.
  unfold classify_heap_write.
  assert (∀ t, P t → P (or_effects EFF_WRITE_MAY_ESCAPE t)) as Hesc.
  { intros t. apply P_scan. set_solver. }
  destruct (get_pointers env r) as [|elts|]; simpl;
    [intros [= <-]; apply Hesc| |intros [= <-]; apply Hesc].
  intros Hrun Hs. apply (foldM_invariant P) in Hrun; [done| |done].
  intros i t t' _ Ht. unfold classify_pointer.
  destruct (may_have_escaped env i); simpl; [intros [= <-]; by apply Hesc|].
  destruct (is_load_param_object _); [|by intros [= <-]].
  destruct (m_param_insn_map b !! addr i) eqn:Hp; [|done].
  intros [= <-]. by eapply P_param.
Qed.

Lemma analyze_instruction_effects_invariant (env : Environment)
  (insn : insn_ptr) (s s' : Summary) :
  analyze_instruction_effects b env insn s = Ok s' → P s → P s'.
Proof.
  unfold analyze_instruction_effects.
  destruct (opcode (target insn));
    try (by intros [= <-]);
    try (intros [= <-]; apply P_scan; set_solver);
    try (intros Hrun Hs; apply bind_Ok_inv in Hrun as (r & _ & Hrun);
         by apply (classify_heap_write_invariant _ _ _ _ Hrun)).
  all: destruct (m_invoke_to_summary_cmap b !! addr insn)
         as [callee_summary|] eqn:Hcallee;
    [|intros [= <-]; apply P_scan; set_solver].
  all: intros Hrun Hs;
    apply (foldM_invariant P) in Hrun; [done| |by eapply P_callee].
  all: intros idx t t' _ Ht Hstep;
    apply bind_Ok_inv in Hstep as (r & _ & Hstep);
    by apply (classify_heap_write_invariant _ _ _ _ Hstep).
Qed.

Lemma build_invariant (s : Summary) :
  P Summary_default → build b = Ok s → P s.
Proof.
  intros Hdefault. unfold build. intros Hrun.
  apply (foldM_invariant P) in Hrun; [done| |done].
  intros block t t' _ Ht. unfold scan_block.
  destruct (is_bottom _); [by intros [= <-]|].
  intros Hblock. apply bind_Ok_inv in Hblock as (st & Hblock & [= <-]).
  apply (foldM_invariant (λ st, P st.2)) in Hblock; [done| |done].
  intros insn u u' _ Hu Hstep. unfold scan_instruction in Hstep.
  apply bind_Ok_inv in Hstep as (s1 & Hstep & [= <-]). simpl.
  by apply (analyze_instruction_effects_invariant _ _ _ _ Hstep).
Qed.
End ScanInvariant.

(** X6.  Every index in the modified_params of a built summary is the index
    of a load-param instruction of the analyzed code: the indices of a
    callee summary are never copied, they are mapped through the caller's
    registers. *)
Theorem built_modified_params_are_own_parameters
  (invoke_to_summary_cmap : gmap positive Summary)
  (ptrs_fp_iter : FixpointIterator) (code : IRCode) (summary : Summary)
  (p : param_idx_t) :
  (Z.of_nat (length (get_param_instructions code)) ≤ 2 ^ 16)%Z →
  build (SummaryBuilder_new invoke_to_summary_cmap ptrs_fp_iter code)
  = Ok summary →
  p ∈ modified_params summary →
  N.to_nat p < length (get_param_instructions code).
Proof.
  intros Hlen Hbuild. revert p.
  apply (build_invariant
           (SummaryBuilder_new invoke_to_summary_cmap ptrs_fp_iter code)
           (λ s, ∀ p, p ∈ modified_params s →
                      N.to_nat p < length (get_param_instructions code)));
    [done|done| | |done].
  - intros k q s Hk Hs q'. cbn [emplace_param modified_params].
    rewrite elem_of_union, elem_of_singleton. intros [->|Hq']; [|by apply Hs].
    cbn [SummaryBuilder_new m_param_insn_map] in Hk.
    apply number_params_origin in Hk as [Hk|(i & insn & Hi & _ & ->)];
      [done|].
    apply lookup_lt_Some in Hi. unfold to_param_idx_t.
    rewrite Z.add_0_l, Z.mod_small by lia. lia.
  - intros q Hq. by apply not_elem_of_empty in Hq.
Qed.

Lemma built_modified_params_are_own_parameters_witness :
  N.to_nat 0%N < length (get_param_instructions sample_code).
Proof.
  apply (built_modified_params_are_own_parameters
           {[11%positive := sample_callee_summary]} sample_fp_iter sample_code
           {| effects := EFF_THROWS; modified_params := {[0%N]} |} 0%N).
  - by vm_compute.
  - by vm_compute.
  - cbn [modified_params]. by apply elem_of_singleton.
Defined.

Lemma within_lor (a e mask : Z) :
  within a mask → within e mask → within (Z.lor a e) mask.
Proof.
  unfold within. intros Ha He. rewrite Z.land_lor_distr_l. by rewrite Ha, He.
Qed.

Lemma within_lor_inv (a e mask : Z) :
  within (Z.lor a e) mask → within a mask ∧ within e mask.
Proof.
  unfold within. intros H.
  split; apply Z.bits_inj'; intros n _;
    apply (f_equal (λ z, Z.testbit z n)) in H;
    rewrite Z.land_spec, Z.lor_spec in H; rewrite Z.land_spec;
    destruct (Z.testbit a n), (Z.testbit e n), (Z.testbit mask n);
    simpl in *; congruence.
Qed.

(** X7.  The effects of a built summary are made of the four effects the
    scan sets by itself (throws, locks, escaping-write, unknown-invoke) and
    of the effects of the callee summaries: a bit outside of them, such as
    no-optimize when no callee has it, is never set by the scan. *)
Theorem built_effects_within (b : SummaryBuilder) (mask : Z)
  (summary : Summary) :
  within scan_effects mask →
  (∀ k callee_summary,
     m_invoke_to_summary_cmap b !! k = Some callee_summary →
     within (effects callee_summary) mask) →
  build b = Ok summary →
  within (effects summary) mask.
Proof.
  intros Hscan Hcallees Hbuild.
  unfold scan_effects in Hscan.
  apply within_lor_inv in Hscan as [Hthrows Hscan].
  apply within_lor_inv in Hscan as [Hlocks Hscan].
  apply within_lor_inv in Hscan as [Hescape Hunknown].
  apply (build_invariant b (λ s, within (effects s) mask)); [| |done|done|done].
  - intros e s He Hs. apply within_lor; [done|].
    repeat (apply elem_of_cons in He as [->|He]; [done|]).
    by apply elem_of_nil in He.
  - intros k cs s Hk Hs. apply within_lor; [done|]. by eapply Hcallees.
Qed.

Lemma built_effects_within_witness : within EFF_THROWS scan_effects.
Proof.
  apply (built_effects_within sample_builder_resolved scan_effects
           {| effects := EFF_THROWS; modified_params := {[0%N]} |}).
  - reflexivity.
  - intros k cs Hk.
    destruct (decide (k = 11%positive)) as [->|Hne].
    + cbn in Hk. injection Hk as <-. reflexivity.
    + cbn [sample_builder_resolved SummaryBuilder_new
           m_invoke_to_summary_cmap] in Hk.
      by rewrite lookup_singleton_ne in Hk.
  - by vm_compute.
Defined.

(** ** The scan joins what the instructions contribute *)

Lemma Summary_eq (s1 s2 : Summary) :
  effects s1 = effects s2 → modified_params s1 = modified_params s2 → s1 = s2.
Proof. destruct s1, s2; simpl. by intros -> ->. Qed.

Lemma Summary_join_default_r (s : Summary) :
  Summary_join s Summary_default = s.
Proof.
  apply Summary_eq; simpl; [apply Z.lor_0_r|]. by rewrite (right_id_L ∅ (∪)).
Qed.

Lemma Summary_join_default_l (s : Summary) :
  Summary_join Summary_default s = s.
Proof.
  apply Summary_eq; simpl; [done|]. by rewrite (left_id_L ∅ (∪)).
Qed.

Lemma Summary_join_assoc (a b c : Summary) :
  Summary_join (Summary_join a b) c = Summary_join a (Summary_join b c).
Proof.
  apply Summary_eq; simpl; [by rewrite Z.lor_assoc|].
  by rewrite (assoc_L (∪)).
Qed.

Lemma Summary_join_comm (a b : Summary) :
  Summary_join a b = Summary_join b a.
Proof.
  apply Summary_eq; simpl; [apply Z.lor_comm|]. by rewrite (comm_L (∪)).
Qed.

Lemma or_effects_join (e : Z) (s : Summary) :
  or_effects e s = Summary_join s (or_effects e Summary_default).
Proof.
  apply Summary_eq; simpl; [done|]. by rewrite (right_id_L ∅ (∪)).
Qed.

Lemma emplace_param_join (p : param_idx_t) (s : Summary) :
  emplace_param p s = Summary_join s (emplace_param p Summary_default).
Proof.
  apply Summary_eq; simpl; [by rewrite Z.lor_0_r|]. set_solver.
Qed.

(** A loop whose body joins its contribution to the state joins the
    contributions of all its iterations to the state. *)
Lemma foldM_additive {A : Type} (body : Summary → A → result Summary)
  (l : list A) :
  (∀ s x, body s x = Summary_join s <$> body Summary_default x) →
  ∀ s, foldM body l s = Summary_join s <$> foldM body l Summary_default.
Proof.
  intros Hbody. induction l as [|x l IH]; intros s; cbn [foldM].
  - simpl. by rewrite Summary_join_default_r.
  - rewrite (Hbody s x). destruct (body Summary_default x) as [d|e]; [|done].
    simpl. rewrite (IH (Summary_join s d)), (IH d).
    destruct (foldM body l Summary_default) as [t|e]; [|done].
    simpl. by rewrite Summary_join_assoc.
Qed.

Lemma foldM_additive_from {A : Type} (body : Summary → A → result Summary)
  (l : list A) (start s : Summary) :
  (∀ s x, body s x = Summary_join s <$> body Summary_default x) →
  foldM body l (Summary_join s start) = Summary_join s <$> foldM body l start.
Proof.
  intros Hbody. rewrite (foldM_additive body l Hbody (Summary_join s start)).
  rewrite (foldM_additive body l Hbody start).
  destruct (foldM body l Summary_default) as [t|e]; [|done].
  simpl. by rewrite Summary_join_assoc.
Qed.

Lemma classify_pointer_additive (b : SummaryBuilder) (env : Environment)
  (s : Summary) (i : insn_ptr) :
  classify_pointer b env s i
  = Summary_join s <$> classify_pointer b env Summary_default i.
Proof.
  unfold classify_pointer.
  destruct (may_have_escaped env i); simpl; [by rewrite or_effects_join|].
  destruct (is_load_param_object _); simpl;
    [|by rewrite Summary_join_default_r].
  destruct (m_param_insn_map b !! addr i); simpl; [|done].
  by rewrite emplace_param_join.
Qed.

Lemma classify_heap_write_additive (b : SummaryBuilder) (env : Environment)
  (r : reg_t) (s : Summary) :
  classify_heap_write b env r s
  = Summary_join s <$> classify_heap_write b env r Summary_default.
Proof.
  unfold classify_heap_write.
  destruct (get_pointers env r) as [|elts|]; simpl;
    [by rewrite or_effects_join| |by rewrite or_effects_join].
  apply foldM_additive. intros t i. apply classify_pointer_additive.
Qed.

Lemma classify_argument_additive (b : SummaryBuilder) (env : Environment)
  (insn : insn_ptr) (s : Summary) (idx : param_idx_t) :
  (r ← src (target insn) (N.to_nat idx); classify_heap_write b env r s)
  = Summary_join s <$>
    (r ← src (target insn) (N.to_nat idx);
     classify_heap_write b env r Summary_default).
Proof.
  destruct (src (target insn) (N.to_nat idx)) as [r|e]; simpl; [|done].
  apply classify_heap_write_additive.
Qed.

Lemma analyze_instruction_effects_additive (b : SummaryBuilder)
  (env : Environment) (insn : insn_ptr) (s : Summary) :
  analyze_instruction_effects b env insn s
  = Summary_join s <$> analyze_instruction_effects b env insn Summary_default.
Proof.
  unfold analyze_instruction_effects.
  destruct (opcode (target insn));
    try (simpl; by rewrite or_effects_join);
    try (simpl; by rewrite Summary_join_default_r);
    try apply (classify_argument_additive b env insn s 1%N);
    try apply (classify_argument_additive b env insn s 0%N).
  all: destruct (m_invoke_to_summary_cmap b !! addr insn) as [callee_summary|];
    [|simpl; by rewrite or_effects_join].
  all: rewrite (or_effects_join _ s);
    apply foldM_additive_from;
    intros t idx; apply classify_argument_additive.
Qed.

Lemma scan_instruction_additive (b : SummaryBuilder) (insn : insn_ptr)
  (env : Environment) (s : Summary) :
  scan_instruction b (env, s) insn
  = (λ st, (st.1, Summary_join s st.2)) <$>
    scan_instruction b (env, Summary_default) insn.
Proof.
  unfold scan_instruction. cbn [fst snd].
  rewrite (analyze_instruction_effects_additive b env insn s).
  by destruct (analyze_instruction_effects b env insn Summary_default).
Qed.

Lemma scan_instructions_additive (b : SummaryBuilder) (l : list insn_ptr)
  (env : Environment) (s : Summary) :
  foldM (scan_instruction b) l (env, s)
  = (λ st, (st.1, Summary_join s st.2)) <$>
    foldM (scan_instruction b) l (env, Summary_default).
Proof.
  revert env s. induction l as [|insn l IH]; intros env s; cbn [foldM].
  - simpl. by rewrite Summary_join_default_r.
  - rewrite (scan_instruction_additive b insn env s).
    destruct (scan_instruction b (env, Summary_default) insn)
      as [[env' d]|e]; [|done].
    simpl. rewrite (IH _ (Summary_join s d)), (IH _ d).
    destruct (foldM (scan_instruction b) l _) as [[env'' t]|e]; [|done].
    simpl. by rewrite Summary_join_assoc.
Qed.

Lemma scan_block_additive (b : SummaryBuilder) (s : Summary) (block : Block) :
  scan_block b s block = Summary_join s <$> scan_block b Summary_default block.
Proof.
  unfold scan_block. destruct (is_bottom _); simpl;
    [by rewrite Summary_join_default_r|].
  rewrite scan_instructions_additive.
  by destruct (foldM (scan_instruction b) _ _) as [[env' t]|e].
Qed.

(** X19.  What the analysis of an instruction adds to the summary does not
    depend on the summary so far, and neither does a failure: the outcome is
    the outcome on the empty summary, joined with the summary so far. *)
Theorem instruction_effects_are_joined (b : SummaryBuilder)
  (env : Environment) (insn : insn_ptr) (summary : Summary) :
  analyze_instruction_effects b env insn summary
  = Summary_join summary <$>
    analyze_instruction_effects b env insn Summary_default.
Proof. apply analyze_instruction_effects_additive. Qed.

(** The order of the iterations of an additive loop does not matter. *)
Lemma foldM_additive_permutation {A : Type}
  (body : Summary → A → result Summary) (l l' : list A) :
  (∀ s x, body s x = Summary_join s <$> body Summary_default x) →
  l ≡ₚ l' → ∀ s r, foldM body l s = Ok r → foldM body l' s = Ok r.
Proof.
  intros Hbody. induction 1 as [|x l l' _ IH|x y l|l1 l2 l3 _ IH1 _ IH2];
    intros s r Hrun.
  - done.
  - cbn [foldM] in *. apply bind_Ok_inv in Hrun as (t & Hx & Hrun).
    rewrite Hx. simpl. by apply IH.
  - cbn [foldM] in *.
    apply bind_Ok_inv in Hrun as (s1 & Hy & Hrun).
    apply bind_Ok_inv in Hrun as (s2 & Hx & Hrun).
    rewrite Hbody in Hy. rewrite Hbody in Hx.
    destruct (body Summary_default y) as [dy|] eqn:Hdy; [|done].
    destruct (body Summary_default x) as [dx|] eqn:Hdx; [|done].
    simpl in Hy, Hx. injection Hy as <-. injection Hx as <-.
    rewrite (Hbody s x), Hdx. simpl.
    rewrite (Hbody _ y), Hdy. simpl.
    rewrite Summary_join_assoc, (Summary_join_comm dx dy),
      <- Summary_join_assoc. done.
  - by apply IH2, IH1.
Qed.

Lemma scan_block_unreachable (b : SummaryBuilder) (s : Summary)
  (block : Block) :
  is_bottom (get_entry_state_at (m_ptrs_fp_iter b) block) = true →
  scan_block b s block = Ok s.
Proof. intros Hbottom. unfold scan_block. by rewrite Hbottom. Qed.

(** X8.  The blocks whose entry state is bottom take no part in the build:
    leaving them out changes neither the summary nor a failure. *)
Theorem build_ignores_unreachable_blocks (b : SummaryBuilder) :
  build (without_unreachable_blocks b) = build b.
Proof.
  unfold build. cbn [without_unreachable_blocks m_code cfg_blocks].
  change (scan_block (without_unreachable_blocks b)) with (scan_block b).
  generalize Summary_default.
  induction (cfg_blocks (m_code b)) as [|block blocks IH]; intros s; [done|].
  rewrite filter_cons.
  destruct (decide (is_bottom (get_entry_state_at (m_ptrs_fp_iter b) block)
                    = false)) as [Hreach|Hbottom]; cbn [foldM].
  - destruct (scan_block b s block); simpl; [apply IH|done].
  - apply not_false_is_true in Hbottom.
    rewrite (scan_block_unreachable b s block Hbottom). simpl. apply IH.
Qed.

(** X9.  The built summary does not depend on the order in which the blocks
    are visited: it is the join of what the blocks contribute. *)
Theorem build_block_order_irrelevant (b : SummaryBuilder)
  (blocks : list Block) (summary : Summary) :
  cfg_blocks (m_code b) ≡ₚ blocks →
  build b = Ok summary ↔ build (with_blocks blocks b) = Ok summary.
Proof.
  intros Hperm. unfold build. cbn [with_blocks m_code cfg_blocks].
  change (scan_block (with_blocks blocks b)) with (scan_block b).
  split; apply foldM_additive_permutation;
    try (intros s block; apply scan_block_additive); done.
Qed.

Lemma build_block_order_irrelevant_witness :
  build (with_blocks (reverse (cfg_blocks sample_code_two_blocks))
           sample_builder_two_blocks)
  = Ok {| effects := Z.lor EFF_THROWS EFF_UNKNOWN_INVOKE;
          modified_params := {[0%N]} |}.
Proof.
  apply (build_block_order_irrelevant sample_builder_two_blocks).
  - apply Permutation_sym, reverse_Permutation.
  - by vm_compute.
Defined.

(** ** Failures of the scan *)

Lemma foldM_fails {A S : Type} (body : S → A → result S) (l : list A) (x : A) :
  x ∈ l → (∀ s, ∃ e, body s x = Fatal e) → ∀ s, ∃ e, foldM body l s = Fatal e.
Proof.
  intros Hx Hfail s. apply list_elem_of_split in Hx as (l1 & l2 & ->).
  rewrite foldM_app. destruct (foldM body l1 s) as [t|e]; [|by eexists].
  simpl. destruct (Hfail t) as [e ->]. by eexists.
Qed.

Lemma classify_pointer_unknown_param (b : SummaryBuilder) (env : Environment)
  (s : Summary) (i : insn_ptr) :
  may_have_escaped env i = false →
  is_load_param_object (opcode (target i)) = true →
  m_param_insn_map b !! addr i = None →
  classify_pointer b env s i = Fatal (StdOutOfRange "unordered_map::at").
Proof. intros Hesc Hlp Hmap. unfold classify_pointer. by rewrite Hesc, Hlp, Hmap. Qed.

Lemma classify_pointer_Fatal_inv (b : SummaryBuilder) (env : Environment)
  (s : Summary) (i : insn_ptr) (e : failure) :
  classify_pointer b env s i = Fatal e →
  e = StdOutOfRange "unordered_map::at" ∧
  may_have_escaped env i = false ∧
  is_load_param_object (opcode (target i)) = true ∧
  m_param_insn_map b !! addr i = None.
Proof.
  unfold classify_pointer.
  destruct (may_have_escaped env i); simpl; [done|].
  destruct (is_load_param_object _); [|done].
  destruct (m_param_insn_map b !! addr i); [done|]. by intros [= <-].
Qed.

(** X10.  A heap write fails to be classified exactly when the set of the
    written-through register holds a load-param-object site that has not
    escaped and is not one of the parameter instructions the builder
    numbered; the failure is the [std::out_of_range] of the map lookup. *)
Theorem classify_heap_write_failure (b : SummaryBuilder) (env : Environment)
  (r : reg_t) (summary : Summary) (e : failure) :
  classify_heap_write b env r summary = Fatal e ↔
  e = StdOutOfRange "unordered_map::at" ∧
  ∃ elts i, get_pointers env r = PS_Value elts ∧ i ∈ elts ∧
    may_have_escaped env i = false ∧
    is_load_param_object (opcode (target i)) = true ∧
    m_param_insn_map b !! addr i = None.
Proof.
  unfold classify_heap_write.
  destruct (get_pointers env r) as [|elts|]; simpl.
  - split; [done|]. by intros (_ & ? & ? & ? & _).
  - assert (∀ s, foldM (classify_pointer b env) elts s = Fatal e ↔
                 e = StdOutOfRange "unordered_map::at" ∧
                 ∃ i, i ∈ elts ∧ may_have_escaped env i = false ∧
                      is_load_param_object (opcode (target i)) = true ∧
                      m_param_insn_map b !! addr i = None) as Hloop.
    { induction elts as [|i elts IH]; intros s; cbn [foldM].
      - split; [done|]. intros (_ & i & Hi & _). by apply elem_of_nil in Hi.
      - destruct (classify_pointer b env s i) as [s'|e'] eqn:Hi; simpl.
        + rewrite IH. split; intros (He & j & Hj & H); (split; [done|]);
            exists j; [split; [by right|done]|].
          apply elem_of_cons in Hj as [->|Hj]; [|done].
          destruct H as (Hesc & Hlp & Hmap).
          by rewrite (classify_pointer_unknown_param b env s i) in Hi.
        + apply classify_pointer_Fatal_inv in Hi as (-> & Hbad). split.
          * intros [= <-]. split; [done|]. exists i. split; [by left|done].
          * by intros (-> & _). }
    rewrite Hloop. split; intros (He & H); (split; [done|]).
    + destruct H as (i & H). by exists elts, i.
    + destruct H as (elts' & i & [= <-] & H). by exists i.
  - split; [done|]. by intros (_ & ? & ? & ? & _).
Qed.

(** X11.  A callee summary that names a parameter index beyond the source
    registers of the invoke makes the analysis of the call fail: the indices
    of an imported summary are trusted against the call site. *)
Theorem resolved_call_needs_argument_registers (b : SummaryBuilder)
  (env : Environment) (insn : insn_ptr) (summary callee_summary : Summary)
  (idx : param_idx_t) :
  is_resolved_invoke (opcode (target insn)) = true →
  m_invoke_to_summary_cmap b !! addr insn = Some callee_summary →
  idx ∈ modified_params callee_summary →
  length (srcs (target insn)) ≤ N.to_nat idx →
  ∃ e, analyze_instruction_effects b env insn summary = Fatal e.
Proof.
  intros Hop Hcallee Hidx Hlen.
  assert (∃ e, foldM (λ s idx, r ← src (target insn) (N.to_nat idx);
                               classify_heap_write b env r s)
                     (elements (modified_params callee_summary))
                     (or_effects (effects callee_summary) summary) = Fatal e)
    as Hloop.
  { apply (foldM_fails _ _ idx); [by apply elem_of_elements|].
    intros s. unfold src. rewrite (lookup_ge_None_2 _ _ Hlen). by eexists. }
  unfold analyze_instruction_effects.
  destruct (opcode (target insn)); simpl in Hop; try discriminate;
    by rewrite Hcallee.
Qed.

Lemma resolved_call_needs_argument_registers_witness :
  ∃ e, analyze_instruction_effects sample_builder_stale sample_env
         sample_invoke_static Summary_default = Fatal e.
Proof.
  apply (resolved_call_needs_argument_registers sample_builder_stale
           sample_env sample_invoke_static Summary_default
           (Summary_of_params [2%N]) 2%N).
  - reflexivity.
  - reflexivity.
  - by apply elem_of_list_to_set, list_elem_of_singleton.
  - simpl. lia.
Defined.

(** ** What the driver publishes *)

Section DriverPublishes.
Context (call_graph : gmap positive (list Edge)).
Context (ptrs_fp_iter_map : gmap positive FixpointIterator).

Local Abbreviation analyze fuel method visiting cmap :=
  (analyze_method_recursive fuel method call_graph ptrs_fp_iter_map
     visiting cmap).

Lemma analyze_callees_invariant_edges (P : gmap positive Summary → Prop)
  (recurse : DexMethod → gmap positive Summary → run (gmap positive Summary))
  (edges : list Edge) (cmap inv cmap' inv' : gmap positive Summary) :
  (∀ edge c c', edge ∈ edges → P c →
                recurse (callee edge) c = Some (Ok c') → P c') →
  P cmap →
  analyze_callees recurse edges cmap inv = Some (Ok (cmap', inv')) →
  P cmap'.
Proof.
  revert cmap inv.
  induction edges as [|edge edges IH]; intros cmap inv Hkeep Hcmap Hrun.
  - by injection Hrun as <- <-.
  - cbn [analyze_callees] in Hrun.
    destruct (recurse (callee edge) cmap) as [[c1|e]|] eqn:Hrec; [|done..].
    eapply IH; [|by eapply (Hkeep edge); [left|..]|done].
    intros edge' c c' Hin. apply Hkeep. by right.
Qed.

Lemma emplace_lookup_Some {V : Type} (k k' : positive) (v v' : V)
  (m : gmap positive V) :
  emplace k v m !! k' = Some v' → m !! k' = Some v' ∨ (k' = k ∧ m !! k = None).
Proof.
  unfold emplace. destruct (m !! k) eqn:Hk; [by left|].
  destruct (decide (k = k')) as [<-|Hne]; [by right|].
  rewrite lookup_insert_ne by done. by left.
Qed.

Lemma emplace_keeps {V : Type} (k k' : positive) (v v' : V)
  (m : gmap positive V) :
  m !! k' = Some v' → emplace k v m !! k' = Some v'.
Proof.
  intros Hk'. unfold emplace. destruct (m !! k) eqn:Hk; [done|].
  rewrite lookup_insert_ne; [done|]. congruence.
Qed.

Lemma summarize_and_publish_inv (method : DexMethod) (code : IRCode)
  (cmap inv cmap' : gmap positive Summary) :
  summarize_and_publish method code ptrs_fp_iter_map cmap inv = Ok cmap' →
  ∃ summary, cmap' = emplace (method_addr method) summary cmap.
Proof.
  unfold summarize_and_publish.
  destruct (ptrs_fp_iter_map !! method_addr method); [|done].
  intros Hrun. apply bind_Ok_inv in Hrun as (scan & _ & [= <-]). by eexists.
Qed.

Lemma analyze_keeps_entries (fuel : nat) (method : DexMethod)
  (visiting : gset positive) (cmap cmap' : gmap positive Summary)
  (k : positive) (s : Summary) :
  analyze fuel method visiting cmap = Some (Ok cmap') →
  cmap !! k = Some s → cmap' !! k = Some s.
Proof.
  revert method visiting cmap cmap'.
  induction fuel as [|fuel IH]; intros method visiting cmap cmap'; [done|].
  rewrite analyze_method_recursive_step.
  destruct (get_code method) as [code|]; [|by intros [= <-]].
  destruct (_ || _); [by intros [= <-]|].
  destruct (analyze_callees _ _ cmap ∅) as [[[cmap1 inv]|e]|] eqn:Hloop;
    [|done..].
  intros [= Hpub] Hk.
  apply (analyze_callees_invariant (λ c, c !! k = Some s)) in Hloop;
    [|intros m c c' Hc Hrec; by apply (IH _ _ _ _ Hrec)|done].
  apply summarize_and_publish_inv in Hpub as [summary ->].
  by apply emplace_keeps.
Qed.

Lemma analyze_new_entries (fuel : nat) (method : DexMethod)
  (visiting : gset positive) (cmap cmap' : gmap positive Summary)
  (k : positive) (s : Summary) :
  analyze fuel method visiting cmap = Some (Ok cmap') →
  cmap' !! k = Some s →
  cmap !! k = Some s ∨
  (k = method_addr method ∧ is_Some (get_code method)) ∨
  callee_with_code call_graph k.
Proof.
  revert method visiting cmap cmap' k s.
  induction fuel as [|fuel IH]; intros method visiting cmap cmap' k s; [done|].
  rewrite analyze_method_recursive_step.
  destruct (get_code method) as [code|] eqn:Hcode; [|intros [= <-]; by left].
  destruct (_ || _); [intros [= <-]; by left|].
  destruct (analyze_callees _ _ cmap ∅) as [[[cmap1 inv]|e]|] eqn:Hloop;
    [|done..].
  intros [= Hpub] Hk.
  assert (∀ k s, cmap1 !! k = Some s →
                 cmap !! k = Some s ∨ callee_with_code call_graph k) as Hinv.
  { apply (analyze_callees_invariant_edges
             (λ c, ∀ k s, c !! k = Some s →
                          cmap !! k = Some s ∨ callee_with_code call_graph k)
             _ _ _ _ _ _) with (3 := Hloop); [|by left].
    intros edge c c' Hedge Hc Hrec k' s' Hk'.
    destruct (IH _ _ _ _ _ _ Hrec Hk') as [Hold|[[-> Hhas]|Hcallee]];
      [by apply Hc| |by right].
    right. destruct (call_graph !! method_addr method) as [edges|] eqn:Hnode;
      [|by apply elem_of_nil in Hedge].
    by exists (method_addr method), edges, edge. }
  apply summarize_and_publish_inv in Hpub as [summary ->].
  apply emplace_lookup_Some in Hk as [Hk|[-> _]].
  - destruct (Hinv _ _ Hk) as [?|?]; [by left|by right; right].
  - right; left. split; [done|by eexists].
Qed.
Lemma analyze_publishes (fuel : nat) (method : DexMethod)
  (visiting : gset positive) (cmap cmap' : gmap positive Summary) :
  is_Some (get_code method) →
  method_addr method ∉ visiting →
  analyze fuel method visiting cmap = Some (Ok cmap') →
  is_Some (cmap' !! method_addr method).
Proof.
  intros [code Hcode] Hpath Hrun.
  destruct fuel as [|fuel]; [done|].
  rewrite analyze_method_recursive_step, Hcode in Hrun.
  destruct (bool_decide_reflect (is_Some (cmap !! method_addr method)))
    as [Hold|Hnew]; simpl in Hrun; [by injection Hrun as <-|].
  rewrite bool_decide_false in Hrun by done.
  destruct (analyze_callees _ _ cmap ∅) as [[[cmap1 inv]|e]|]; [|done..].
  injection Hrun as Hpub.
  apply summarize_and_publish_inv in Hpub as [summary ->].
  unfold emplace. destruct (cmap1 !! method_addr method) eqn:Hm;
    [by rewrite Hm|by rewrite lookup_insert_eq].
Qed.
End DriverPublishes.

(** X12.  The driver never replaces a summary: every entry of the shared
    map that is there when a call starts is there, unchanged, when the call
    returns. *)
Theorem driver_keeps_published_summaries (fuel : nat) (method : DexMethod)
  (call_graph : gmap positive (list Edge))
  (ptrs_fp_iter_map : gmap positive FixpointIterator)
  (visiting : gset positive) (cmap cmap' : gmap positive Summary) :
  analyze_method_recursive fuel method call_graph ptrs_fp_iter_map visiting
    cmap = Some (Ok cmap') →
  cmap ⊆ cmap'.
Proof.
  intros Hrun. apply map_subseteq_spec. intros k s.
  by apply (analyze_keeps_entries _ _ _ _ _ _ _ _ _ Hrun).
Qed.

Lemma driver_keeps_published_summaries_witness :
  ({[200%positive := {| effects := EFF_THROWS; modified_params := ∅ |}]}
     : gmap positive Summary) ⊆
  {[100%positive := {| effects := EFF_THROWS; modified_params := ∅ |};
    200%positive := {| effects := EFF_THROWS; modified_params := ∅ |}]}.
Proof.
  apply (driver_keeps_published_summaries 2 sample_method_A sample_call_graph
           sample_fp_iter_map ∅).
  by vm_compute.
Defined.

(** X13.  A call of the driver that returns for a method with code that is
    not on the recursion path leaves a summary for the method in the shared
    map, and a further call for the method, on any path, returns at once
    with the map unchanged. *)
Theorem driver_publishes_once (fuel : nat) (method : DexMethod)
  (call_graph : gmap positive (list Edge))
  (ptrs_fp_iter_map : gmap positive FixpointIterator)
  (visiting : gset positive) (cmap cmap' : gmap positive Summary) :
  is_Some (get_code method) →
  method_addr method ∉ visiting →
  analyze_method_recursive fuel method call_graph ptrs_fp_iter_map visiting
    cmap = Some (Ok cmap') →
  is_Some (cmap' !! method_addr method) ∧
  ∀ fuel' visiting',
    analyze_method_recursive (S fuel') method call_graph ptrs_fp_iter_map
      visiting' cmap' = Some (Ok cmap').
Proof.
  intros Hhas Hpath Hrun.
  pose proof (analyze_publishes _ _ _ _ _ _ _ Hhas Hpath Hrun) as Hpublished.
  split; [done|]. intros fuel' visiting'. destruct Hhas as [code Hcode].
  rewrite analyze_method_recursive_step, Hcode.
  by rewrite bool_decide_true.
Qed.

Lemma driver_publishes_once_witness :
  ∃ cmap',
    analyze_method_recursive 3 sample_method_A sample_call_graph
      sample_fp_iter_map ∅ ∅ = Some (Ok cmap') ∧
    is_Some (cmap' !! method_addr sample_method_A) ∧
    ∀ fuel' visiting',
      analyze_method_recursive (S fuel') sample_method_A sample_call_graph
        sample_fp_iter_map visiting' cmap' = Some (Ok cmap').
Proof.
  eexists. split; [by vm_compute|].
  apply (driver_publishes_once 3 sample_method_A sample_call_graph
           sample_fp_iter_map ∅ ∅).
  - by eexists.
  - apply not_elem_of_empty.
  - by vm_compute.
Defined.

(** X14.  The driver publishes summaries for methods with code only: an
    entry that a call adds to the shared map is the entry of the analyzed
    method or of a callee of some edge of the call graph, and that method
    has code. *)
Theorem driver_publishes_methods_with_code (fuel : nat) (method : DexMethod)
  (call_graph : gmap positive (list Edge))
  (ptrs_fp_iter_map : gmap positive FixpointIterator)
  (visiting : gset positive) (cmap cmap' : gmap positive Summary)
  (k : positive) :
  analyze_method_recursive fuel method call_graph ptrs_fp_iter_map visiting
    cmap = Some (Ok cmap') →
  cmap !! k = None → is_Some (cmap' !! k) →
  (k = method_addr method ∧ is_Some (get_code method)) ∨
  callee_with_code call_graph k.
Proof.
  intros Hrun Hnew [s Hk].
  destruct (analyze_new_entries _ _ _ _ _ _ _ _ _ Hrun Hk) as [Hold|H];
    [congruence|done].
Qed.

Lemma driver_publishes_methods_with_code_witness :
  (200%positive = method_addr sample_method_A ∧
   is_Some (get_code sample_method_A)) ∨
  callee_with_code sample_call_graph 200%positive.
Proof.
  apply (driver_publishes_methods_with_code 3 sample_method_A
           sample_call_graph sample_fp_iter_map ∅ ∅
           {[100%positive := {| effects := 9; modified_params := ∅ |};
             200%positive := {| effects := 9; modified_params := ∅ |}]}
           200%positive).
  - by vm_compute.
  - reflexivity.
  - by eexists.
Defined.

(** ** The whole scope *)

Lemma walk_code_invariant (P : gmap positive Summary → Prop)
  (visit : DexMethod → gmap positive Summary → run (gmap positive Summary))
  (scope : list DexMethod) (cmap cmap' : gmap positive Summary) :
  (∀ m c c', m ∈ scope → is_Some (get_code m) → P c →
             visit m c = Some (Ok c') → P c') →
  P cmap → walk_code visit scope cmap = Some (Ok cmap') → P cmap'.
Proof.
  revert cmap. induction scope as [|m scope IH]; intros cmap Hkeep Hcmap Hrun.
  - by injection Hrun as <-.
  - cbn [walk_code] in Hrun.
    assert (∀ m' c c', m' ∈ scope → is_Some (get_code m') → P c →
                       visit m' c = Some (Ok c') → P c') as Hkeep'.
    { intros m' c c' Hin. apply Hkeep. by right. }
    destruct (get_code m) as [code|] eqn:Hcode; [|by apply (IH cmap)].
    destruct (visit m cmap) as [[c1|e]|] eqn:Hvisit; [|done..].
    apply (IH c1); [done| |done].
    apply (Hkeep m cmap c1); [by left|by eexists|done|done].
Qed.

Lemma walk_code_terminates
  (visit : DexMethod → gmap positive Summary → run (gmap positive Summary))
  (scope : list DexMethod) (cmap : gmap positive Summary) :
  (∀ m c, is_Some (visit m c)) → is_Some (walk_code visit scope cmap).
Proof.
  intros Hvisit. revert cmap.
  induction scope as [|m scope IH]; intros cmap; [by eexists|].
  cbn [walk_code]. destruct (get_code m); [|apply IH].
  destruct (Hvisit m cmap) as [[c1|e] ->]; [apply IH|by eexists].
Qed.

Lemma walk_code_covers
  (call_graph : gmap positive (list Edge))
  (ptrs_fp_iter_map : gmap positive FixpointIterator) (fuel : nat)
  (scope : list DexMethod) (cmap cmap' : gmap positive Summary)
  (method : DexMethod) :
  walk_code (λ m c, analyze_method_recursive fuel m call_graph
                      ptrs_fp_iter_map ∅ c) scope cmap = Some (Ok cmap') →
  method ∈ scope → is_Some (get_code method) →
  is_Some (cmap' !! method_addr method).
Proof.
  revert cmap. induction scope as [|m scope IH]; intros cmap Hrun Hin Hcode.
  - by apply elem_of_nil in Hin.
  - cbn [walk_code] in Hrun. apply elem_of_cons in Hin as [->|Hin].
    + destruct Hcode as [code Hcode]. rewrite Hcode in Hrun.
      destruct (analyze_method_recursive fuel m _ _ ∅ cmap)
        as [[c1|e]|] eqn:Hvisit; [|done..].
      apply (analyze_publishes _ _ _ _ _ _ _) in Hvisit as [s Hs];
        [|by eexists|apply not_elem_of_empty].
      apply (walk_code_invariant (λ c, c !! method_addr m = Some s))
        in Hrun; [by eexists| |done].
      intros m' c c' _ _ Hc Hrec.
      by apply (analyze_keeps_entries _ _ _ _ _ _ _ _ _ Hrec).
    + destruct (get_code m); [|by apply (IH cmap)].
      destruct (analyze_method_recursive fuel m _ _ ∅ cmap)
        as [[c1|e]|]; [|done..].
      by apply (IH c1).
Qed.

(** X15.  [analyze_scope] keeps what it is given: the entry of
    Object.<init> is set to the summary that modifies parameter 0, whatever
    the given map holds for it, every other given entry is kept, and neither
    is recomputed by the walk. *)
Theorem analyze_scope_keeps_seeds (fuel : nat) (object_init : positive)
  (scope : list DexMethod) (call_graph : gmap positive (list Edge))
  (ptrs_fp_iter_map : gmap positive FixpointIterator)
  (summary_map result : gmap positive Summary) :
  analyze_scope fuel object_init scope call_graph ptrs_fp_iter_map
    summary_map = Some (Ok result) →
  result !! object_init = Some (Summary_of_params [0%N]) ∧
  ∀ k s, k ≠ object_init → summary_map !! k = Some s → result !! k = Some s.
Proof.
  unfold analyze_scope. destruct (walk_code _ _ _) as [[cmap'|e]|]; [|done..].
  intros [= <-]. split.
  - apply lookup_union_Some_l, lookup_insert_eq.
  - intros k s Hne Hk. apply lookup_union_Some_l.
    by rewrite lookup_insert_ne.
Qed.

Lemma analyze_scope_keeps_seeds_witness :
  ∃ result,
    analyze_scope 4 1000 [sample_method_A; sample_method_B] sample_call_graph
      sample_fp_iter_map
      {[1000%positive := sample_callee_summary;
        1001%positive := sample_callee_summary]} = Some (Ok result) ∧
    result !! 1000%positive = Some (Summary_of_params [0%N]) ∧
    ∀ k s, k ≠ 1000%positive →
      ({[1000%positive := sample_callee_summary;
         1001%positive := sample_callee_summary]} : gmap positive Summary)
        !! k = Some s →
      result !! k = Some s.
Proof.
  eexists. split; [by vm_compute|].
  apply (analyze_scope_keeps_seeds 4 1000 [sample_method_A; sample_method_B]
           sample_call_graph sample_fp_iter_map).
  by vm_compute.
Defined.

(** X16.  With fuel above the number of callee methods of the call graph,
    [analyze_scope] returns; when it returns a map, every method of the
    scope that has code has a summary in it. *)
Theorem analyze_scope_covers_scope (fuel : nat) (object_init : positive)
  (scope : list DexMethod) (call_graph : gmap positive (list Edge))
  (ptrs_fp_iter_map : gmap positive FixpointIterator)
  (summary_map : gmap positive Summary) :
  S (size (callee_addrs call_graph)) < fuel →
  (∃ outcome,
     analyze_scope fuel object_init scope call_graph ptrs_fp_iter_map
       summary_map = Some outcome) ∧
  ∀ result method,
    analyze_scope fuel object_init scope call_graph ptrs_fp_iter_map
      summary_map = Some (Ok result) →
    method ∈ scope → is_Some (get_code method) →
    is_Some (result !! method_addr method).
Proof.
  intros Hfuel. unfold analyze_scope. split.
  - destruct (walk_code_terminates
                (λ m c, analyze_method_recursive fuel m call_graph
                          ptrs_fp_iter_map ∅ c)
                scope
                (<[object_init := Summary_of_params [0%N]]> summary_map ∪ ∅))
      as [[cmap'|e] ->]; [|by eexists..].
    intros m c. apply analyze_method_recursive_terminates.
    by rewrite difference_empty_L.
  - intros result method.
    destruct (walk_code _ _ _) as [[cmap'|e]|] eqn:Hwalk; [|done..].
    intros [= <-] Hin Hcode.
    destruct (walk_code_covers _ _ _ _ _ _ _ Hwalk Hin Hcode) as [s Hs].
    destruct ((<[object_init := Summary_of_params [0%N]]> summary_map)
                !! method_addr method) as [s'|] eqn:Hseed.
    + exists s'. by apply lookup_union_Some_l.
    + exists s. rewrite lookup_union_r by done. done.
Qed.

Lemma analyze_scope_covers_scope_witness :
  (∃ outcome,
     analyze_scope 4 1000 [sample_method_A; sample_method_B] sample_call_graph
       sample_fp_iter_map ∅ = Some outcome) ∧
  ∀ result method,
    analyze_scope 4 1000 [sample_method_A; sample_method_B] sample_call_graph
      sample_fp_iter_map ∅ = Some (Ok result) →
    method ∈ [sample_method_A; sample_method_B] →
    is_Some (get_code method) →
    is_Some (result !! method_addr method).
Proof.
  apply (analyze_scope_covers_scope 4 1000 [sample_method_A; sample_method_B]
           sample_call_graph sample_fp_iter_map ∅).
  by vm_compute.
Defined.

(** ** Reading the index list *)

Lemma read_params_spec (l : list s_expr) (acc : gset param_idx_t) :
  foldM (λ (acc : gset param_idx_t) e,
           x ← get_int32 e; Ok ({[to_param_idx_t x]} ∪ acc)) l acc
  = if forallb is_int32 l
    then Ok (list_to_set (omap read_param l) ∪ acc)
    else Fatal (StdInvalidArgument "s_expr::get_int32").
Proof.
  revert acc. induction l as [|e l IH]; intros acc; cbn [foldM forallb].
  - simpl. f_equal. set_solver.
  - destruct e as [n|s|l']; simpl; [|done..].
    rewrite IH. destruct (forallb is_int32 l); [|done].
    f_equal. set_solver.
Qed.

(** X17.  [from_s_expr] reads the list of parameter indices as a set: two
    lists with the same elements, in any order and with any repetition, give
    the same outcome, be it a summary or a failure. *)
Theorem from_s_expr_reads_a_set (text : string) (l1 l2 : list s_expr) :
  (∀ e, e ∈ l1 ↔ e ∈ l2) →
  from_s_expr (S_List [S_String text; S_List l1])
  = from_s_expr (S_List [S_String text; S_List l2]).
Proof.
  intros Hsame. rewrite !from_s_expr_well_shaped.
  destruct (stoi _) as [v|e]; [|done]. cbn [mbind result_bind].
  rewrite !read_params_spec.
  assert (forallb is_int32 l1 = forallb is_int32 l2) as ->.
  { apply eq_true_iff_eq. rewrite !forallb_forall.
    split; intros H e He; apply H; apply list_elem_of_In;
      apply list_elem_of_In in He; by apply Hsame. }
  destruct (forallb is_int32 l2); [|done].
  assert (list_to_set (omap read_param l1)
          = (list_to_set (omap read_param l2) : gset param_idx_t)) as ->;
    [|done].
  apply set_eq. intros p. rewrite !elem_of_list_to_set, !list_elem_of_omap.
  split; intros (e & He & Hp); exists e; (split; [by apply Hsame|done]).
Qed.

Lemma from_s_expr_reads_a_set_witness :
  from_s_expr (S_List [S_String "3"; S_List [S_Int32 1; S_Int32 0; S_Int32 1]])
  = from_s_expr (S_List [S_String "3"; S_List [S_Int32 0; S_Int32 1]]).
Proof.
  apply from_s_expr_reads_a_set. intros e. rewrite !elem_of_cons.
  rewrite !elem_of_nil. tauto.
Defined.

(** ** Built summaries can be cached *)

Lemma within_ones_fits_int (e : Z) :
  within e (Z.ones 31) → (0 ≤ e ≤ INT_MAX)%Z.
Proof.
  unfold within, INT_MAX. rewrite Z.land_ones by lia. intros He.
  pose proof (Z.mod_pos_bound e (2 ^ 31)) as Hbound. lia.
Qed.

Lemma fits_int_within_ones (e : Z) :
  (0 ≤ e ≤ INT_MAX)%Z → within e (Z.ones 31).
Proof.
  unfold within, INT_MAX. rewrite Z.land_ones by lia. intros He.
  apply Z.mod_small. lia.
Qed.

(** X18.  A summary that [build] returns is read back unchanged from its
    serialized form, when the effects of the callee summaries it imported
    fit an [int]: the scan adds only effects and parameter indices that
    survive the round trip. *)
Theorem built_summary_round_trip
  (invoke_to_summary_cmap : gmap positive Summary)
  (ptrs_fp_iter : FixpointIterator) (code : IRCode) (summary : Summary) :
  (∀ k callee_summary,
     invoke_to_summary_cmap !! k = Some callee_summary →
     (0 ≤ effects callee_summary ≤ INT_MAX)%Z) →
  build (SummaryBuilder_new invoke_to_summary_cmap ptrs_fp_iter code)
  = Ok summary →
  from_s_expr (to_s_expr summary) = Ok summary.
Proof.
  intros Hcallees Hbuild.
  assert (0 ≤ effects summary ≤ INT_MAX)%Z as Heff.
  { apply within_ones_fits_int.
    apply (build_invariant
             (SummaryBuilder_new invoke_to_summary_cmap ptrs_fp_iter code)
             (λ s, within (effects s) (Z.ones 31))); [| |done|done|done].
    - intros e s He Hs. apply within_lor; [done|].
      repeat (apply elem_of_cons in He as [->|He]; [done|]).
      by apply elem_of_nil in He.
    - intros k cs s Hk Hs. apply within_lor; [done|].
      apply fits_int_within_ones. by eapply Hcallees. }
  assert (∀ p, p ∈ modified_params summary → (p < 2 ^ 16)%N) as Hparams.
  { apply (build_invariant
             (SummaryBuilder_new invoke_to_summary_cmap ptrs_fp_iter code)
             (λ s, ∀ p, p ∈ modified_params s → (p < 2 ^ 16)%N));
      [done|done| | |done].
    - intros k q s Hk Hs q'. cbn [emplace_param modified_params].
      rewrite elem_of_union, elem_of_singleton. intros [->|Hq']; [|by apply Hs].
      cbn [SummaryBuilder_new m_param_insn_map] in Hk.
      apply number_params_origin in Hk as [Hk|(i & insn & _ & _ & ->)];
        [done|].
      unfold to_param_idx_t.
      pose proof (Z.mod_pos_bound (0 + Z.of_nat i) (2 ^ 16)). lia.
    - intros q Hq. by apply not_elem_of_empty in Hq. }
  destruct summary as [e mp]. cbn [effects modified_params] in *.
  unfold to_s_expr. cbn [effects modified_params].
  rewrite from_s_expr_well_shaped, print_string_atom_to_string by lia.
  rewrite stoi_to_string by done.
  cbn [mbind result_bind]. rewrite read_params_written.
  - cbn [mbind result_bind]. f_equal. f_equal.
    + unfold to_effects_t. apply Z.mod_small. unfold INT_MAX in Heff. lia.
    + rewrite list_to_set_elements_L. set_solver.
  - apply Forall_forall. intros idx Hidx. apply Hparams.
    by apply elem_of_elements.
Qed.

Lemma built_summary_round_trip_witness :
  from_s_expr (to_s_expr {| effects := EFF_THROWS; modified_params := {[0%N]} |})
  = Ok {| effects := EFF_THROWS; modified_params := {[0%N]} |}.
Proof.
  apply (built_summary_round_trip {[11%positive := sample_callee_summary]}
           sample_fp_iter sample_code).
  - intros k cs Hk.
    destruct (decide (k = 11%positive)) as [->|Hne].
    + rewrite lookup_singleton_eq in Hk. injection Hk as <-.
      split; by vm_compute.
    + by rewrite lookup_singleton_ne in Hk.
  - by vm_compute.
Defined.

(** ** Text after the effects *)

Lemma string_app_assoc (s1 s2 s3 : string) :
  (s1 +:+ s2) +:+ s3 = s1 +:+ (s2 +:+ s3).
Proof.
  induction s1 as [|c s1 IH]; [done|].
  change (String c ((s1 +:+ s2) +:+ s3) = String c (s1 +:+ (s2 +:+ s3))).
  by rewrite IH.
Qed.

Lemma digits_of_app (fuel : nat) (n : Z) (s : string) :
  digits_of fuel n s = digits_of fuel n EmptyString +:+ s.
Proof.
  revert n s. induction fuel as [|fuel IH]; intros n s; [done|].
  rewrite !digits_of_step. destruct (n / 10 =? 0)%Z; [done|].
  rewrite (IH _ (String _ s)), (IH _ (String _ EmptyString)).
  by rewrite string_app_assoc.
Qed.

Lemma all_alnum_symbol_chars (s : string) :
  all_alnum s = true → all_symbol_chars s = true.
Proof.
  induction s as [|c s IH]; [done|]. cbn [all_alnum all_symbol_chars].
  intros [Hc Hs]%andb_true_iff. rewrite (IH Hs), andb_true_r.
  unfold is_symbol_char. by rewrite Hc.
Qed.

(** X20.  [from_s_expr] reads the effects up to the first character that is
    not a digit and ignores the rest of the atom: the decimal text of the
    effects followed by letters and digits, the first of them a letter, is
    read as the effects.  (An atom with such characters only is printed by
    [str()] as it is; an atom that holds another character is printed between
    quotes, and this theorem says nothing about it.) *)
Theorem from_s_expr_ignores_text_after_effects (n : Z) (c : ascii)
  (rest : string) (l : list s_expr) :
  (0 ≤ n ≤ INT_MAX)%Z → digit_value c = None →
  all_alnum (String c rest) = true →
  from_s_expr (S_List [S_String (to_string n +:+ String c rest); S_List l])
  = from_s_expr (S_List [S_String (to_string n); S_List l]).
Proof.
  intros Hn Hc Halnum. rewrite !from_s_expr_well_shaped.
  rewrite (print_string_atom_to_string n) by lia.
  rewrite (stoi_to_string n Hn).
  assert (stoi (print_string_atom (to_string n +:+ String c rest)) = Ok n)
    as ->; [|done].
  unfold to_string. destruct (Z.ltb_spec n 0%Z) as [Hneg|_]; [lia|].
  unfold decimal. rewrite <- digits_of_app.
  pose proof (digits_of_starts_with_digit (Z.to_nat (Z.log2 n)) n
                (String c rest) ltac:(lia)) as Hfirst.
  pose proof (all_symbol_chars_digits_of (S (Z.to_nat (Z.log2 n))) n
                (String c rest) ltac:(lia)
                (all_alnum_symbol_chars _ Halnum)) as Hall.
  assert (print_string_atom (digits_of (S (Z.to_nat (Z.log2 n))) n
                               (String c rest))
          = digits_of (S (Z.to_nat (Z.log2 n))) n (String c rest)) as ->.
  { destruct (digits_of _ n (String c rest)) as [|c' rest']; [done|].
    unfold print_string_atom. by rewrite Hall. }
  rewrite stoi_starts_with_digit by done.
  cbv zeta. rewrite accumulate_digits_of.
  - cbn [accumulate_digits]. rewrite Hc.
    destruct (Z.leb_spec INT_MIN n), (Z.leb_spec n INT_MAX);
      unfold INT_MIN in *; simpl; (done || lia).
  - split; [lia|]. rewrite Nat2Z.inj_succ, Z2Nat.id by apply Z.log2_nonneg.
    destruct (Z.eq_dec n 0%Z) as [->|Hpos]; [done|].
    apply Z.log2_spec. lia.
Qed.

Lemma from_s_expr_ignores_text_after_effects_witness :
  from_s_expr (S_List [S_String (to_string 12 +:+ "abc"); S_List []])
  = from_s_expr (S_List [S_String (to_string 12); S_List []]).
Proof.
  apply (from_s_expr_ignores_text_after_effects 12 "a" "bc" []).
  - split; by vm_compute.
  - reflexivity.
  - reflexivity.
Defined.

(** ** Cycles of the call graph *)

(** The loop over the edges keeps a property of the shared map and a
    property of the invoke-to-summary map together. *)
Lemma analyze_callees_invariant_pair (P Q : gmap positive Summary → Prop)
  (recurse : DexMethod → gmap positive Summary → run (gmap positive Summary))
  (edges : list Edge) (cmap inv cmap' inv' : gmap positive Summary) :
  (∀ edge c c', edge ∈ edges → P c →
                recurse (callee edge) c = Some (Ok c') → P c') →
  (∀ edge c i s, edge ∈ edges → P c → Q i →
                 c !! method_addr (callee edge) = Some s →
                 Q (emplace (addr (invoke_insn edge)) s i)) →
  P cmap → Q inv →
  analyze_callees recurse edges cmap inv = Some (Ok (cmap', inv')) →
  P cmap' ∧ Q inv'.
Proof.
  revert cmap inv.
  induction edges as [|edge edges IH];
    intros cmap inv Hrec Hemplace Hcmap Hinv Hrun.
  - by injection Hrun as <- <-.
  - cbn [analyze_callees] in Hrun.
    destruct (recurse (callee edge) cmap) as [[c1|e]|] eqn:Hcall; [|done..].
    assert (P c1) as Hc1 by (by eapply (Hrec edge); [left|..]).
    eapply IH; [| | |  |exact Hrun]; [| |done|].
    + intros edge' c c' Hin. apply Hrec. by right.
    + intros edge' c i s Hin. apply Hemplace. by right.
    + destruct (c1 !! method_addr (callee edge)) as [s|] eqn:Hs; [|done].
      by apply (Hemplace edge c1); [left|..].
Qed.

(** After the loop, the callee of each edge on which the recursive call
    publishes has a summary. *)
Lemma analyze_callees_covers
  (recurse : DexMethod → gmap positive Summary → run (gmap positive Summary))
  (edges : list Edge) (cmap inv cmap' inv' : gmap positive Summary)
  (edge : Edge) :
  (∀ m c c' k s, recurse m c = Some (Ok c') → c !! k = Some s →
                 c' !! k = Some s) →
  (∀ c c', recurse (callee edge) c = Some (Ok c') →
           is_Some (c' !! method_addr (callee edge))) →
  edge ∈ edges →
  analyze_callees recurse edges cmap inv = Some (Ok (cmap', inv')) →
  is_Some (cmap' !! method_addr (callee edge)).
Proof.
  intros Hkeep Hpublish. revert cmap inv.
  induction edges as [|edge' edges IH]; intros cmap inv Hin Hrun.
  - by apply elem_of_nil in Hin.
  - cbn [analyze_callees] in Hrun.
    destruct (recurse (callee edge') cmap) as [[c1|e]|] eqn:Hcall; [|done..].
    apply elem_of_cons in Hin as [->|Hin]; [|by eapply IH].
    destruct (Hpublish _ _ Hcall) as [s Hs]. exists s.
    apply (analyze_callees_invariant
             (λ c, c !! method_addr (callee edge') = Some s)) in Hrun;
      [done| |done].
    intros m c c' Hc Hrec. by apply (Hkeep _ _ _ _ _ Hrec).
Qed.

Lemma emplace_lookup_inv {V : Type} (k k' : positive) (v v' : V)
  (m : gmap positive V) :
  emplace k v m !! k' = Some v' → m !! k' = Some v' ∨ (k' = k ∧ v' = v).
Proof.
  unfold emplace. destruct (m !! k) eqn:Hk; [by left|].
  destruct (decide (k = k')) as [<-|Hne].
  - rewrite lookup_insert_eq. intros [= <-]. by right.
  - rewrite lookup_insert_ne by done. by left.
Qed.

Lemma emplace_lookup_None {V : Type} (k k' : positive) (v : V)
  (m : gmap positive V) :
  k ≠ k' → m !! k' = None → emplace k v m !! k' = None.
Proof.
  intros Hne Hk'. unfold emplace. destruct (m !! k); [done|].
  by rewrite lookup_insert_ne.
Qed.

(** What a publication that returns went through. *)
Lemma summarize_and_publish_Ok_inv (method : DexMethod) (code : IRCode)
  (ptrs_fp_iter_map : gmap positive FixpointIterator)
  (cmap inv cmap' : gmap positive Summary) :
  summarize_and_publish method code ptrs_fp_iter_map cmap inv = Ok cmap' →
  ∃ ptrs_fp_iter scan,
    ptrs_fp_iter_map !! method_addr method = Some ptrs_fp_iter ∧
    build (SummaryBuilder_new inv ptrs_fp_iter code) = Ok scan ∧
    cmap' = emplace (method_addr method)
              (if no_optimizations method
               then or_effects EFF_NO_OPTIMIZE scan else scan) cmap.
Proof.
  unfold summarize_and_publish.
  destruct (ptrs_fp_iter_map !! method_addr method) as [fp|]; [|done].
  intros Hrun. apply bind_Ok_inv in Hrun as (scan & Hbuild & [= <-]).
  by exists fp, scan.
Qed.

(** An invoke instruction that the scan meets gives unknown-invoke when the
    invoke-to-summary map has no entry for it, or an entry that has
    unknown-invoke. *)
Lemma build_unknown_invoke (inv : gmap positive Summary)
  (ptrs_fp_iter : FixpointIterator) (code : IRCode) (insn : insn_ptr)
  (scan : Summary) :
  is_invoke (opcode (target insn)) = true →
  scanned (SummaryBuilder_new ∅ ptrs_fp_iter code) insn →
  (∀ s, inv !! addr insn = Some s → has_effect EFF_UNKNOWN_INVOKE s) →
  build (SummaryBuilder_new inv ptrs_fp_iter code) = Ok scan →
  has_effect EFF_UNKNOWN_INVOKE scan.
Proof.
  intros Hinvoke Hscanned Hentry Hbuild.
  apply (build_scanned_effect (SummaryBuilder_new inv ptrs_fp_iter code) insn);
    [exact Hscanned| |done].
  intros env s s'.
  destruct (is_super_or_interface_invoke (opcode (target insn))) eqn:Hsi.
  { rewrite (analyze_unresolved_invoke _ insn Hinvoke) by (by right).
    intros [= <-]. apply has_effect_or_effects. }
  destruct (inv !! addr insn) as [callee_summary|] eqn:Hinv.
  - apply (analyze_resolved_invoke_imports _ insn callee_summary);
      [|exact Hinv|by apply Hentry].
    unfold is_invoke in Hinvoke. rewrite Hsi in Hinvoke.
    by rewrite orb_false_r in Hinvoke.
  - rewrite (analyze_unresolved_invoke _ insn Hinvoke) by (left; exact Hinv).
    intros [= <-]. apply has_effect_or_effects.
Qed.

Section Cycle.
Context (call_graph : gmap positive (list Edge)).
Context (ptrs_fp_iter_map : gmap positive FixpointIterator).
Context (A B : DexMethod) (code_B : IRCode) (fp_B : FixpointIterator).
Context (edges_B : list Edge) (i_BA : insn_ptr).
Hypothesis Hcode_B : get_code B = Some code_B.
Hypothesis Hfp_B : ptrs_fp_iter_map !! method_addr B = Some fp_B.
Hypothesis Hedges_B : call_graph !! method_addr B = Some edges_B.
Hypothesis Hnames : names_method call_graph B.
Hypothesis Hsole : sole_callee edges_B i_BA A.
Hypothesis Hinvoke : is_invoke (opcode (target i_BA)) = true.
Hypothesis Hscanned : scanned (SummaryBuilder_new ∅ fp_B code_B) i_BA.

Local Abbreviation analyze fuel method visiting cmap :=
  (analyze_method_recursive fuel method call_graph ptrs_fp_iter_map
     visiting cmap).

Local Abbreviation unresolved :=
  (back_edge_unresolved (method_addr A) (method_addr B)).

(** While [A] is on the recursion path, whatever the driver publishes for
    [B] has unknown-invoke: the call back to [A] finds no summary. *)
Lemma back_edge_stays_unresolved (fuel : nat) (method : DexMethod)
  (visiting : gset positive) (cmap cmap' : gmap positive Summary) :
  (method_addr method = method_addr B → method = B) →
  method_addr A ∈ visiting →
  unresolved cmap →
  analyze fuel method visiting cmap = Some (Ok cmap') →
  unresolved cmap'.
Proof.
  revert method visiting cmap cmap'.
  induction fuel as [|fuel IH];
    intros method visiting cmap cmap' Hwf Hpath Hcmap; [done|].
  rewrite analyze_method_recursive_step.
  destruct (get_code method) as [code|] eqn:Hcode; [|by intros [= <-]].
  destruct (bool_decide (is_Some (cmap !! method_addr method))); simpl;
    [by intros [= <-]|].
  destruct (bool_decide_reflect (method_addr method ∈ visiting))
    as [|Hfresh]; [by intros [= <-]|].
  destruct (analyze_callees _ _ cmap ∅) as [[[cmap1 inv]|e]|] eqn:Hloop;
    [|done..].
  intros [= Hpub].
  assert (unresolved cmap1 ∧
          (method_addr method = method_addr B → inv !! addr i_BA = None))
    as [Hcmap1 Hinv].
  { apply (analyze_callees_invariant_pair unresolved
             (λ i, method_addr method = method_addr B →
                   i !! addr i_BA = None) _ _ _ _ _ _)
      with (5 := Hloop); [| |done|by intros _].
    - intros edge c c' Hedge Hc Hrec. apply (IH _ _ _ _) with (4 := Hrec);
        [|set_solver|done].
      destruct (call_graph !! method_addr method) as [edges|] eqn:Hnode;
        [|by apply elem_of_nil in Hedge].
      exact (Hnames _ _ _ Hnode Hedge).
    - intros edge c i s Hedge [Hc _] Hi Hs Heq.
      rewrite Heq, Hedges_B in Hedge. simpl in Hedge.
      apply emplace_lookup_None; [|by apply Hi].
      intros Hsame. rewrite (Hsole edge Hedge Hsame) in Hs. congruence. }
  apply summarize_and_publish_Ok_inv in Hpub as (fp & scan & Hfp & Hbuild & ->).
  destruct Hcmap1 as [Hno_A Hunknown]. split.
  - apply emplace_lookup_None; [|done]. intros Heq. apply Hfresh.
    by rewrite Heq.
  - intros s Hs. apply emplace_lookup_inv in Hs as [Hold|[Heq ->]];
      [by apply Hunknown|].
    symmetry in Heq. pose proof (Hwf Heq) as ->.
    rewrite Hcode_B in Hcode. injection Hcode as <-.
    rewrite Hfp_B in Hfp. injection Hfp as <-.
    apply published_has_scan_effects.
    apply (build_unknown_invoke inv fp_B code_B i_BA); [done|done| |done].
    rewrite (Hinv Heq). by intros s.
Qed.
End Cycle.


(** In the sample call graph every callee of the address of
    [sample_method_B] is [sample_method_B]. *)
Lemma sample_call_graph_names_B : names_method sample_call_graph sample_method_B.
Proof.
  intros k edges edge Hnode Hedge Haddr. unfold sample_call_graph in Hnode.
  apply lookup_insert_Some in Hnode as [[<- <-]|[_ Hnode]].
  - apply list_elem_of_singleton in Hedge as ->. reflexivity.
  - apply lookup_singleton_Some in Hnode as [<- <-].
    apply list_elem_of_singleton in Hedge as ->. discriminate.
Qed.


